(** * Real-Time-Messaging-System: broker core

    A shallow embedding of the three in-memory components of the
    repository and the properties its design document states about them:

    - [src/api/websocket_gateway/ConnectionManager.py] (room registry),
    - [src/broker/queue/MessageQueue.py] (acknowledged FIFO queue),
    - [src/broker/queue/PriorityQueue.py] (priority queue on [heapq]).

    Python methods mutate [self] and may raise; they are embedded as
    computations in a state-and-exception monad, so that the state left
    behind by a call that raises is part of the model.  Locks and threads
    are not modelled: every method runs to its end before the next one
    starts.  The first part of the file holds the embedding, the second
    part the properties. *)

From stdpp Require Import base list strings gmap sorting.
From Stdlib Require Import ZArith Lia.

(** ** Python effects: exceptions and mutable state *)

Module Py.

(** The exceptions that the embedded code can raise.  [OutOfFuel] is not
    a Python exception: it is what a fuel-bounded loop of the model
    returns when the fuel is exhausted, and is shown never to happen. *)
Inductive exn : Set :=
| IndexError
| ValueError
| KeyError
| TypeError
| queue_Full
| queue_Empty
| DeliveryFailure
| OutOfFuel.

#[global] Instance exn_eq_dec : EqDecision exn.
Proof. solve_decision. Defined.

Inductive outcome (A : Type) : Type :=
| Ret (a : A)
| Raise (e : exn).
Arguments Ret {A} a.
Arguments Raise {A} e.

(** A method on a state [S] returning an [A]. *)
Definition M (S A : Type) : Type := S -> outcome A * S.

Definition ret {S A} (a : A) : M S A := fun s => (Ret a, s).
Definition raise {S A} (e : exn) : M S A := fun s => (Raise e, s).
Definition bind {S A B} (c : M S A) (k : A -> M S B) : M S B :=
  fun s => match c s with
           | (Ret a, s') => k a s'
           | (Raise e, s') => (Raise e, s')
           end.
Definition get {S} : M S S := fun s => (Ret s, s).
Definition put {S} (s : S) : M S unit := fun _ => (Ret tt, s).
Definition modify {S} (f : S -> S) : M S unit := fun s => (Ret tt, f s).

(** [try: c  except: h] with a bare [except] clause. *)
Definition try_except {S A} (c : M S A) (h : exn -> M S A) : M S A :=
  fun s => match c s with
           | (Ret a, s') => (Ret a, s')
           | (Raise e, s') => h e s'
           end.

(** [try: c  except E: h], every other exception propagates. *)
Definition try_except_on {S A} (E : exn -> bool) (c : M S A) (h : M S A) : M S A :=
  fun s => match c s with
           | (Ret a, s') => (Ret a, s')
           | (Raise e, s') => if E e then h s' else (Raise e, s')
           end.

(** Lifting a pure partial result. *)
Definition lift {S A} (o : outcome A) : M S A := fun s => (o, s).

(** Running a method on a component of a larger state. *)
Definition zoom {S T A} (proj : S -> T) (upd : T -> S -> S) (c : M T A) : M S A :=
  fun s => let (r, t) := c (proj s) in (r, upd t s).

(** The state a call leaves behind, whether it returned or raised. *)
Definition exec {S A} (c : M S A) (s : S) : S := snd (c s).
Definition result {S A} (c : M S A) (s : S) : outcome A := fst (c s).

(** [for x in xs: body x], stopping at the first exception. *)
Fixpoint for_each {S X} (xs : list X) (body : X -> M S unit) : M S unit :=
  match xs with
  | [] => ret tt
  | x :: rest => bind (body x) (fun _ => for_each rest body)
  end.

(** [x in l] and [l.remove(x)] on Python lists. *)
Definition list_contains `{EqDecision X} (x : X) (l : list X) : bool :=
  bool_decide (x ∈ l).

Fixpoint list_remove `{EqDecision X} (x : X) (l : list X) : outcome (list X) :=
  match l with
  | [] => Raise ValueError
  | y :: rest =>
      if decide (y = x) then Ret rest
      else match list_remove x rest with
           | Ret rest' => Ret (y :: rest')
           | Raise e => Raise e
           end
  end.

(** [l[i]] and [l[i] = x]; both raise [IndexError] out of range. *)
Definition list_getitem {X} (i : nat) (l : list X) : outcome X :=
  match l !! i with
  | Some x => Ret x
  | None => Raise IndexError
  end.

Definition list_setitem {X} (i : nat) (x : X) (l : list X) : outcome (list X) :=
  if decide (i < length l) then Ret (<[i := x]> l) else Raise IndexError.

End Py.

Import Py.

Declare Scope py_scope.
Delimit Scope py_scope with py.
Notation "'do' x <- c ; k" := (bind c (fun x => k))
  (at level 10, x name, c at level 100, k at level 200,
   format "'[v' 'do'  x  <-  c ; '/' k ']'") : py_scope.
Notation "c ;; k" := (bind c (fun _ => k))
  (at level 100, k at level 200, right associativity) : py_scope.
Open Scope py_scope.

(** ** Room registry: [ConnectionManager] *)

Module ConnectionManager.

(** A [WebSocket] object; [in] and [remove] compare them by identity. *)
Abbreviation WebSocket := nat (only parsing).

Record ConnectionManager : Type := mkCM {
  active_connections : gmap string (list WebSocket);
  user_rooms : gmap string (list string)
}.

(** [__init__]: two empty [defaultdict(list)]. *)
Definition init : ConnectionManager :=
  {| active_connections := ∅; user_rooms := ∅ |}.

(** [d[k]] on a [defaultdict(list)]: a missing key is first inserted
    with the value [[]]. *)
Definition defaultdict_getitem {V} (k : string) (d : gmap string (list V))
  : list V * gmap string (list V) :=
  match d !! k with
  | Some l => (l, d)
  | None => ([], <[k := []]> d)
  end.

(** [d.get(k, [])]: no insertion. *)
Definition dict_get_default {V} (k : string) (d : gmap string (list V)) : list V :=
  default [] (d !! k).

Definition active_connections_getitem (room : string)
  : M ConnectionManager (list WebSocket) :=
  fun s => let (l, d) := defaultdict_getitem room (active_connections s) in
           (Ret l, {| active_connections := d; user_rooms := user_rooms s |}).

Definition user_rooms_getitem (user_id : string)
  : M ConnectionManager (list string) :=
  fun s => let (l, d) := defaultdict_getitem user_id (user_rooms s) in
           (Ret l, {| active_connections := active_connections s; user_rooms := d |}).

(** The lists stored in the dictionaries are mutated in place:
    [d[k].append(x)] and [d[k].remove(x)] write the new list back under
    the key that [d[k]] has just looked up (or created). *)
Definition set_active_connections (room : string) (l : list WebSocket)
  : M ConnectionManager unit :=
  modify (fun s => {| active_connections := <[room := l]> (active_connections s);
                      user_rooms := user_rooms s |}).

Definition del_active_connections (room : string) : M ConnectionManager unit :=
  fun s => match active_connections s !! room with
           | Some _ => (Ret tt, {| active_connections := delete room (active_connections s);
                                   user_rooms := user_rooms s |})
           | None => (Raise KeyError, s)
           end.

Definition set_user_rooms (user_id : string) (l : list string)
  : M ConnectionManager unit :=
  modify (fun s => {| active_connections := active_connections s;
                      user_rooms := <[user_id := l]> (user_rooms s) |}).

(** [connect], after [await websocket.accept()] has returned. *)
Definition connect (websocket : WebSocket) (room user_id : string)
  : M ConnectionManager unit :=
  do conns <- active_connections_getitem room;
  set_active_connections room (conns ++ [websocket]) ;;
  do rooms <- user_rooms_getitem user_id;
  set_user_rooms user_id (rooms ++ [room]).

Definition disconnect (websocket : WebSocket) (room user_id : string)
  : M ConnectionManager unit :=
  do conns <- active_connections_getitem room;
  (if list_contains websocket conns then
     do conns <- active_connections_getitem room;
     do conns' <- lift (list_remove websocket conns);
     set_active_connections room conns' ;;
     do conns <- active_connections_getitem room;
     if bool_decide (conns = []) then del_active_connections room else ret tt
   else ret tt) ;;
  do rooms <- user_rooms_getitem user_id;
  do rooms' <- lift (list_remove room rooms);
  set_user_rooms user_id rooms'.

Definition get_rooms_for_user (user_id : string) (s : ConnectionManager) : list string :=
  dict_get_default user_id (user_rooms s).

Definition get_connections_for_room (room : string) (s : ConnectionManager)
  : list WebSocket :=
  dict_get_default room (active_connections s).

(** The endpoint [POST /unsubscribe/{room}/{user_id}] of the same file:
    the room is removed only when the membership test finds it.  Returns
    whether the user was subscribed. *)
Definition unsubscribe_user_from_room (room user_id : string)
  : M ConnectionManager bool :=
  do s <- get;
  let rooms := get_rooms_for_user user_id s in
  if list_contains room rooms then
    do rooms <- user_rooms_getitem user_id;
    do rooms' <- lift (list_remove room rooms);
    set_user_rooms user_id rooms' ;;
    ret true
  else ret false.

(** The transport under the registry.  [send_text] on a handle whose
    connection is closed raises; every call is recorded, so that the
    delivery attempts of a broadcast can be read off afterwards. *)
Record World : Type := mkWorld {
  manager : ConnectionManager;
  closed : list WebSocket;
  attempts : list (WebSocket * string)
}.

Definition send_text (connection : WebSocket) (message : string) : M World unit :=
  fun w =>
    let w' := {| manager := manager w; closed := closed w;
                 attempts := attempts w ++ [(connection, message)] |} in
    if list_contains connection (closed w) then (Raise DeliveryFailure, w')
    else (Ret tt, w').

Definition broadcast (message room : string) : M World unit :=
  do w <- get;
  let connections := dict_get_default room (active_connections (manager w)) in
  for_each connections (fun connection => send_text connection message).

Definition send_personal_message (message : string) (websocket : WebSocket)
  : M World unit :=
  send_text websocket message.

(** The endpoint [POST /send_personal_message/{room}/{user_id}] of the
    same file: each send is wrapped in [try ... except Exception], which
    logs the failure and goes on to the next connection. *)
Definition send_personal_message_endpoint (room message : string) : M World unit :=
  do w <- get;
  let connections := get_connections_for_room room (manager w) in
  for_each connections (fun connection =>
    try_except (send_personal_message message connection) (fun _ => ret tt)).

End ConnectionManager.

(** ** Acknowledged FIFO queue: [MessageQueue] *)

Module MessageQueue.

Record Message : Type := mkMessage {
  id : string;
  content : string;
  priority : Z;
  timestamp : Z;
  acknowledged : bool
}.

(** [Message] objects are shared between the queue, the pending index
    and the callers, and [acknowledge] mutates them in place: they live
    in a store and are referred to by address. *)
Abbreviation addr := nat (only parsing).

(** [pending_ack] is a [dict]: keys are unique, and iteration follows
    insertion order. *)
Abbreviation dict V := (list (string * V)) (only parsing).

Definition dict_contains {V} (k : string) (d : dict V) : bool :=
  bool_decide (k ∈ d.*1).

Fixpoint dict_setitem {V} (k : string) (v : V) (d : dict V) : dict V :=
  match d with
  | [] => [(k, v)]
  | (k', v') :: rest =>
      if decide (k' = k) then (k', v) :: rest
      else (k', v') :: dict_setitem k v rest
  end.

Fixpoint dict_pop {V} (k : string) (d : dict V) : outcome (V * dict V) :=
  match d with
  | [] => Raise KeyError
  | (k', v') :: rest =>
      if decide (k' = k) then Ret (v', rest)
      else match dict_pop k rest with
           | Ret (v, rest') => Ret (v, (k', v') :: rest')
           | Raise e => Raise e
           end
  end.

(** The queue object together with the store of the messages it has
    created.  [queue] is the content of the [queue.Queue], head first.
    Clock readings ([time.time()]) and [ack_timeout] are taken as exact
    numbers of seconds. *)
Record World : Type := mkWorld {
  maxsize : Z;
  queue : list addr;
  pending_ack : dict addr;
  ack_timeout : Z;
  cleanup_interval : Z;
  objects : addr -> Message;
  next_addr : addr
}.

Definition set_queue (q : list addr) (w : World) : World :=
  {| maxsize := maxsize w; queue := q; pending_ack := pending_ack w;
     ack_timeout := ack_timeout w; cleanup_interval := cleanup_interval w;
     objects := objects w; next_addr := next_addr w |}.

Definition set_pending_ack (p : dict addr) (w : World) : World :=
  {| maxsize := maxsize w; queue := queue w; pending_ack := p;
     ack_timeout := ack_timeout w; cleanup_interval := cleanup_interval w;
     objects := objects w; next_addr := next_addr w |}.

Definition set_objects (o : addr -> Message) (n : addr) (w : World) : World :=
  {| maxsize := maxsize w; queue := queue w; pending_ack := pending_ack w;
     ack_timeout := ack_timeout w; cleanup_interval := cleanup_interval w;
     objects := o; next_addr := n |}.

Definition blank : Message :=
  {| id := ""; content := ""; priority := 0; timestamp := 0; acknowledged := false |}.

(** [MessageQueue.__init__(max_size)]. *)
Definition init (max_size : Z) : World :=
  {| maxsize := max_size; queue := []; pending_ack := [];
     ack_timeout := 30; cleanup_interval := 10;
     objects := fun _ => blank; next_addr := 0 |}.

(** [Message.__init__]: [uuid] is the value of [str(uuid.uuid4())] and
    [now] the value of [time.time()] at the call. *)
Definition Message_new (uuid : string) (now : Z) (content : string) (priority : Z)
  : M World addr :=
  fun w =>
    let a := next_addr w in
    let m := {| id := uuid; content := content; priority := priority;
                timestamp := now; acknowledged := false |} in
    (Ret a, set_objects (fun x => if decide (x = a) then m else objects w x) (S a) w).

(** [Message.acknowledge]. *)
Definition Message_acknowledge (a : addr) : M World unit :=
  modify (fun w =>
    let m := objects w a in
    let m' := {| id := id m; content := content m; priority := priority m;
                 timestamp := timestamp m; acknowledged := true |} in
    set_objects (fun x => if decide (x = a) then m' else objects w x) (next_addr w) w).

(** [queue.Queue]: [maxsize <= 0] means unbounded. *)
Definition full (w : World) : bool :=
  bool_decide (0 < maxsize w)%Z && bool_decide (maxsize w <= Z.of_nat (length (queue w)))%Z.

Definition put_nowait (a : addr) : M World unit :=
  fun w => if full w then (Raise queue_Full, w)
           else (Ret tt, set_queue (queue w ++ [a]) w).

(** [Queue.get(timeout=1)] with no producer running meanwhile: an empty
    queue is still empty when the wait is over. *)
Definition queue_get : M World addr :=
  fun w => match queue w with
           | [] => (Raise queue_Empty, w)
           | a :: rest => (Ret a, set_queue rest w)
           end.

Definition enqueue (uuid : string) (now : Z) (content : string) (priority : Z)
  : M World addr :=
  do message <- Message_new uuid now content priority;
  try_except (put_nowait message) (fun _ => ret tt) ;;
  ret message.

Definition dequeue : M World (option addr) :=
  try_except_on (fun e => bool_decide (e = queue_Empty))
    (do message <- queue_get;
     do w <- get;
     put (set_pending_ack (dict_setitem (id (objects w message)) message (pending_ack w)) w) ;;
     ret (Some message))
    (ret None).

Definition pending_ack_pop (message_id : string) : M World addr :=
  fun w => match dict_pop message_id (pending_ack w) with
           | Ret (a, rest) => (Ret a, set_pending_ack rest w)
           | Raise e => (Raise e, w)
           end.

Definition acknowledge (message_id : string) : M World bool :=
  do w <- get;
  if dict_contains message_id (pending_ack w) then
    do message <- pending_ack_pop message_id;
    Message_acknowledge message ;;
    ret true
  else ret false.

(** The test of the loop body of [requeue_unacknowledged]. *)
Definition expired (now : Z) (w : World) (message : addr) : bool :=
  negb (acknowledged (objects w message))
  && bool_decide (now - timestamp (objects w message) > ack_timeout w)%Z.

(** The body of the loop of [requeue_unacknowledged], for one
    [(message_id, message)] item. *)
Definition requeue_body (now : Z) (item : string * addr) : M World unit :=
  do w <- get;
  if expired now w item.2 then
    pending_ack_pop item.1 ;;
    put_nowait item.2
  else ret tt.

(** [now] is the value of [time.time()] read at the start of the scan;
    the loop runs over a copy of the items. *)
Definition requeue_unacknowledged (now : Z) : M World unit :=
  do w0 <- get;
  for_each (pending_ack w0) (requeue_body now).

Definition get_queue_size (w : World) : nat := length (queue w).
Definition get_pending_ack_size (w : World) : nat := length (pending_ack w).

(** A caller's view: which call is made, and when.  The clock value of a
    call reaches the code only where the code reads the clock. *)
Inductive call : Type :=
| Enqueue (uuid content : string) (priority : Z)
| Dequeue
| Acknowledge (message_id : string)
| Requeue.

Definition step (t : Z) (c : call) : M World unit :=
  match c with
  | Enqueue uuid content priority => enqueue uuid t content priority ;; ret tt
  | Dequeue => dequeue ;; ret tt
  | Acknowledge message_id => acknowledge message_id ;; ret tt
  | Requeue => requeue_unacknowledged t
  end.

Definition run (trace : list (Z * call)) (w : World) : World :=
  fold_left (fun w tc => exec (step tc.1 tc.2) w) trace w.

(** The identifiers that [uuid4] hands out along a trace. *)
Definition uuids (trace : list (Z * call)) : list string :=
  omap (fun tc => match tc.2 with Enqueue uuid _ _ => Some uuid | _ => None end) trace.

(** Room for [n] more entries in the bounded queue. *)
Definition has_room (n : nat) (w : World) : Prop :=
  (maxsize w <= 0 ∨ Z.of_nat (length (queue w) + n) <= maxsize w)%Z.

(** The invariant of the queue: [issued] lists the identifiers handed
    out so far. *)
Record invariant (issued : list string) (w : World) : Prop := mkInv {
  inv_queue_nodup : NoDup (queue w);
  inv_pending_keys : NoDup (pending_ack w).*1;
  inv_disjoint : ∀ a, a ∈ queue w → a ∉ (pending_ack w).*2;
  inv_allocated : ∀ a, a ∈ queue w ∨ a ∈ (pending_ack w).*2 → a < next_addr w;
  inv_unacknowledged :
    ∀ a, a ∈ queue w ∨ a ∈ (pending_ack w).*2 → acknowledged (objects w a) = false;
  inv_keyed : ∀ k a, (k, a) ∈ pending_ack w → id (objects w a) = k;
  inv_issued : ∀ a, a < next_addr w → id (objects w a) ∈ issued;
  inv_id_inj :
    ∀ a b, a < next_addr w → b < next_addr w →
           id (objects w a) = id (objects w b) → a = b
}.

End MessageQueue.

(** ** The standard library heap: [heapq]

    [heappush] and [heappop] as [Lib/heapq.py] defines them, on a Python
    list that is mutated in place.  The entries are the tuples
    [(priority, counter, message)] that [PriorityQueue] stores. *)

Module heapq.
Section heapq.

Context {A : Type}.

(** [==] and [<] on the payloads.  The payload type is [Any]: its [<]
    may raise [TypeError]. *)
Variable payload_eq : A -> A -> bool.
Variable payload_lt : A -> A -> outcome bool.

Abbreviation entry := (Z * nat * A)%type (only parsing).

(** [x < y] on tuples: the first components that differ decide. *)
Definition tuple_lt (x y : entry) : outcome bool :=
  let '(p1, c1, m1) := x in
  let '(p2, c2, m2) := y in
  if bool_decide (p1 = p2) then
    if bool_decide (c1 = c2) then
      if payload_eq m1 m2 then Ret false else payload_lt m1 m2
    else Ret (bool_decide (c1 < c2))
  else Ret (bool_decide (p1 < p2)%Z).

Definition getitem {X} (i : nat) : M (list X) X :=
  fun heap => (list_getitem i heap, heap).

Definition setitem {X} (i : nat) (x : X) : M (list X) unit :=
  fun heap => match list_setitem i x heap with
              | Ret heap' => (Ret tt, heap')
              | Raise e => (Raise e, heap)
              end.

Definition append {X} (x : X) : M (list X) unit :=
  modify (fun heap => heap ++ [x]).

(** [heap.pop()]: removes and returns the last element. *)
Definition pop {X} : M (list X) X :=
  fun heap => match last heap with
              | Some x => (Ret x, take (length heap - 1) heap)
              | None => (Raise IndexError, heap)
              end.

(** The [while pos > startpos] loop of [_siftdown], followed by
    [heap[pos] = newitem]. *)
Fixpoint _siftdown_loop (fuel : nat) (newitem : entry) (startpos pos : nat)
  : M (list entry) unit :=
  match fuel with
  | O => raise OutOfFuel
  | S fuel' =>
      if decide (startpos < pos) then
        let parentpos := Nat.shiftr (pos - 1) 1 in
        do parent <- getitem parentpos;
        do smaller <- lift (tuple_lt newitem parent);
        if (smaller : bool) then
          setitem pos parent ;;
          _siftdown_loop fuel' newitem startpos parentpos
        else setitem pos newitem
      else setitem pos newitem
  end.

Definition _siftdown (startpos pos : nat) : M (list entry) unit :=
  do newitem <- getitem pos;
  _siftdown_loop (S pos) newitem startpos pos.

(** The [while childpos < endpos] loop of [_siftup]; returns the position
    of the leaf where the loop stops. *)
Fixpoint _siftup_loop (fuel : nat) (endpos pos : nat) : M (list entry) nat :=
  match fuel with
  | O => raise OutOfFuel
  | S fuel' =>
      let childpos := 2 * pos + 1 in
      if decide (childpos < endpos) then
        let rightpos := childpos + 1 in
        do childpos <-
          (if decide (rightpos < endpos) then
             do l <- getitem childpos;
             do r <- getitem rightpos;
             do smaller <- lift (tuple_lt l r);
             ret (if negb smaller then rightpos else childpos)
           else ret childpos);
        do child <- getitem childpos;
        setitem pos child ;;
        _siftup_loop fuel' endpos childpos
      else ret pos
  end.

Definition _siftup (pos : nat) : M (list entry) unit :=
  do heap <- get;
  let endpos := length heap in
  let startpos := pos in
  do newitem <- getitem pos;
  do pos <- _siftup_loop (S endpos) endpos pos;
  setitem pos newitem ;;
  _siftdown startpos pos.

Definition heappush (item : entry) : M (list entry) unit :=
  append item ;;
  do heap <- get;
  _siftdown 0 (length heap - 1).

Definition heappop : M (list entry) entry :=
  do lastelt <- pop;
  do heap <- get;
  if bool_decide (heap ≠ []) then
    do returnitem <- getitem 0;
    setitem 0 lastelt ;;
    _siftup 0 ;;
    ret returnitem
  else ret lastelt.

(** The key of an entry is its pair [(priority, counter)], ordered
    lexicographically. *)
Definition key_lt (x y : entry) : Prop :=
  (x.1.1 < y.1.1)%Z ∨ (x.1.1 = y.1.1 ∧ x.1.2 < y.1.2).

Definition key_le (x y : entry) : Prop :=
  (x.1.1 < y.1.1)%Z ∨ (x.1.1 = y.1.1 ∧ x.1.2 ≤ y.1.2).

#[export] Instance key_lt_dec (x y : entry) : Decision (key_lt x y).
Proof. unfold key_lt. apply _. Defined.

Definition counters (heap : list entry) : list nat := (λ x, x.1.2) <$> heap.

Definition parent (i : nat) : nat := (i - 1) / 2.

(** The heap invariant of [heapq]: [heap[(i-1)//2] <= heap[i]] for every
    [i > 0]. *)
Definition heap_ordered (heap : list entry) : Prop :=
  ∀ i x p, 0 < i → heap !! i = Some x → heap !! parent i = Some p → key_le p x.

(** Ordered except for the edge from [pos] up to its parent; the children
    of [pos] are no smaller than the parent of [pos]. *)
Definition ordered_except_up (heap : list entry) (pos : nat) : Prop :=
  (∀ i x p, 0 < i → i ≠ pos →
            heap !! i = Some x → heap !! parent i = Some p → key_le p x)
  ∧ (∀ c x g, 0 < pos → 0 < c → parent c = pos →
              heap !! c = Some x → heap !! parent pos = Some g → key_le g x).

(** Ordered except for the edges around [pos] (up to its parent and down
    to its children); the children of [pos] are no smaller than the parent
    of [pos]. *)
Definition ordered_except_around (heap : list entry) (pos : nat) : Prop :=
  (∀ i x p, 0 < i → i ≠ pos → parent i ≠ pos →
            heap !! i = Some x → heap !! parent i = Some p → key_le p x)
  ∧ (∀ c x g, 0 < pos → 0 < c → parent c = pos →
              heap !! c = Some x → heap !! parent pos = Some g → key_le g x).

End heapq.
End heapq.

(** ** Priority queue: [PriorityQueue] *)

Module PriorityQueue.
Section PriorityQueue.

Context {A : Type}.
Variable payload_eq : A -> A -> bool.
Variable payload_lt : A -> A -> outcome bool.

Abbreviation entry := (Z * nat * A)%type (only parsing).

Record PriorityQueue : Type := mkPQ {
  queue : list entry;
  counter : nat
}.

Definition init : PriorityQueue := {| queue := []; counter := 0 |}.

Definition on_queue {X} (c : M (list entry) X) : M PriorityQueue X :=
  zoom queue (fun q s => {| queue := q; counter := counter s |}) c.

Definition is_empty (s : PriorityQueue) : bool :=
  bool_decide (length (queue s) = 0).

Definition enqueue (priority : Z) (message : A) : M PriorityQueue unit :=
  do s <- get;
  on_queue (heapq.heappush payload_eq payload_lt (priority, counter s, message)) ;;
  modify (fun s => {| queue := queue s; counter := counter s + 1 |}).

(** Returns [heappop(self.queue)[1:]], the pair [(counter, message)]. *)
Definition dequeue : M PriorityQueue (nat * A) :=
  do s <- get;
  if is_empty s then raise IndexError
  else
    do item <- on_queue (heapq.heappop payload_eq payload_lt);
    ret (item.1.2, item.2).

Definition peek : M PriorityQueue (option A) :=
  do s <- get;
  if is_empty s then ret None
  else
    do item <- on_queue (heapq.getitem 0);
    ret (Some item.2).

Definition size (s : PriorityQueue) : nat := length (queue s).

Definition clear : M PriorityQueue unit :=
  put {| queue := []; counter := 0 |}.

Inductive call : Type :=
| Enqueue (priority : Z) (message : A)
| Dequeue
| Peek
| Clear.

Definition step (c : call) : M PriorityQueue unit :=
  match c with
  | Enqueue priority message => enqueue priority message
  | Dequeue => dequeue ;; ret tt
  | Peek => peek ;; ret tt
  | Clear => clear
  end.

Definition run (calls : list call) (s : PriorityQueue) : PriorityQueue :=
  fold_left (fun s c => exec (step c) s) calls s.

(** The payloads that a sequence of [dequeue] calls returns, up to the
    first call that raises. *)
Fixpoint drain (n : nat) (s : PriorityQueue) : list A :=
  match n with
  | O => []
  | S n' => match dequeue s with
            | (Ret (_, message), s') => message :: drain n' s'
            | (Raise _, _) => []
            end
  end.

(** The number of [enqueue] calls in a sequence of calls, and whether the
    sequence contains no [clear]. *)
Fixpoint enqueues (calls : list call) : nat :=
  match calls with
  | [] => 0
  | Enqueue _ _ :: rest => S (enqueues rest)
  | _ :: rest => enqueues rest
  end.

Fixpoint no_clear (calls : list call) : bool :=
  match calls with
  | [] => true
  | Clear :: _ => false
  | _ :: rest => no_clear rest
  end.

(** The invariant of the priority queue. *)
Definition invariant (s : PriorityQueue) : Prop :=
  heapq.heap_ordered (queue s)
  ∧ NoDup (heapq.counters (queue s))
  ∧ (∀ x, x ∈ queue s → x.1.2 < counter s).

End PriorityQueue.

Arguments PriorityQueue A : clear implicits.
Arguments call A : clear implicits.

(** [==] and [<] on [str] payloads. *)
Definition str_eq (a b : string) : bool := bool_decide (a = b).
Definition str_lt (a b : string) : outcome bool := Ret (String.ltb a b).

End PriorityQueue.

(** ** The HTTP endpoints and the clients of the three components *)

Module Endpoints.

Import ConnectionManager.

(** The endpoint [POST /subscribe/{room}/{user_id}]: the room is appended
    to the user's list unless the membership test finds it.  Returns
    whether the room was added. *)
Definition subscribe_user_to_room (room user_id : string)
  : M ConnectionManager bool :=
  do s <- get;
  let rooms := get_rooms_for_user user_id s in
  if negb (list_contains room rooms) then
    do rooms <- user_rooms_getitem user_id;
    set_user_rooms user_id (rooms ++ [room]) ;;
    ret true
  else ret false.

End Endpoints.

(** [Publisher] and [Subscriber] of [MessageQueue.py]. *)

Module Clients.

Import MessageQueue.

Definition publish (uuid : string) (now : Z) (message_content : string) (priority : Z)
  : M World addr :=
  do message <- enqueue uuid now message_content priority;
  ret message.

(** [if message:] holds for every [Message] object. *)
Definition receive_message : M World (option addr) :=
  do message <- dequeue;
  match message with
  | Some m => ret (Some m)
  | None => ret None
  end.

Definition acknowledge_message (message_id : string) : M World bool :=
  do success <- acknowledge message_id;
  ret success.

(** A publisher that publishes the given messages one after the other;
    each item is [(uuid, now, content, priority)]. *)
Fixpoint publish_all (items : list (string * Z * string * Z)) : M World (list addr) :=
  match items with
  | [] => ret []
  | (uuid, now, message_content, priority) :: rest =>
      do message <- publish uuid now message_content priority;
      do messages <- publish_all rest;
      ret (message :: messages)
  end.

(** A subscriber that calls [receive_message] [n] times and collects what
    it gets. *)
Fixpoint receive_n (n : nat) : M World (list (option addr)) :=
  match n with
  | O => ret []
  | S n' =>
      do message <- receive_message;
      do messages <- receive_n n';
      ret (message :: messages)
  end.


(** What a later state keeps of an earlier one: the configuration, the
    messages created so far and their fields; only the acknowledged flag
    may change, from false to true. *)
Definition extends (w w' : World) : Prop :=
  maxsize w' = maxsize w
  ∧ ack_timeout w' = ack_timeout w
  ∧ next_addr w ≤ next_addr w'
  ∧ ∀ a, a < next_addr w →
      id (objects w' a) = id (objects w a)
      ∧ content (objects w' a) = content (objects w a)
      ∧ priority (objects w' a) = priority (objects w a)
      ∧ timestamp (objects w' a) = timestamp (objects w a)
      ∧ (acknowledged (objects w a) = true → acknowledged (objects w' a) = true).

(** Every message created so far is in the queue, in the pending index
    or acknowledged. *)
Definition accounted (w : World) : Prop :=
  ∀ a, a < next_addr w →
       a ∈ queue w ∨ a ∈ (pending_ack w).*2 ∨ acknowledged (objects w a) = true.

(** The queue holds at most [m] messages, [m] being its capacity. *)
Definition within_capacity (m : Z) (w : World) : Prop :=
  maxsize w = m ∧ (Z.of_nat (length (queue w)) <= m)%Z.

End Clients.

(** [PriorityMessageQueue] of [PriorityQueue.py]. *)

Module PriorityMessageQueue.
Section PriorityMessageQueue.

Context {A : Type}.
Variable payload_eq : A -> A -> bool.
Variable payload_lt : A -> A -> outcome bool.

Definition enqueue_message (priority : Z) (message : A)
  : M (PriorityQueue.PriorityQueue A) unit :=
  PriorityQueue.enqueue payload_eq payload_lt priority message.

(** [self.dequeue()[1]]: the message, without the counter. *)
Definition dequeue_message : M (PriorityQueue.PriorityQueue A) A :=
  do item <- PriorityQueue.dequeue payload_eq payload_lt;
  ret item.2.

Definition peek_message : M (PriorityQueue.PriorityQueue A) (option A) :=
  PriorityQueue.peek.

(** A consumer that calls [dequeue_message] [n] times. *)
Fixpoint dequeue_messages (n : nat) : M (PriorityQueue.PriorityQueue A) (list A) :=
  match n with
  | O => ret []
  | S n' =>
      do message <- dequeue_message;
      do messages <- dequeue_messages n';
      ret (message :: messages)
  end.

(** A producer that enqueues the given [(priority, message)] pairs one
    after the other. *)
Definition enqueue_calls (items : list (Z * A)) : list (PriorityQueue.call A) :=
  (λ item, PriorityQueue.Enqueue item.1 item.2) <$> items.

(** The entries that the producer's items become: the [i]-th item gets
    the counter [first + i]. *)
Definition entries_of (first : nat) (items : list (Z * A)) : list (Z * nat * A) :=
  imap (λ i item, (item.1, first + i, item.2)) items.

End PriorityMessageQueue.
End PriorityMessageQueue.

(** * Properties *)

Ltac py_unfold :=
  unfold bind, ret, raise, get, put, modify, lift, try_except, try_except_on,
    exec, result, zoom in *.

Lemma exec_bind_ret {S A} (c : M S A) (s : S) :
  exec (c ;; ret tt) s = exec c s.
Proof. unfold exec, bind, ret. by destruct (c s) as [[]]. Qed.

Lemma list_remove_absent `{EqDecision X} (x : X) (l : list X) :
  x ∉ l → list_remove x l = Raise ValueError.
Proof.
  induction l as [|y l IH]; intros Hx; simpl; [done|].
  apply not_elem_of_cons in Hx as [Hne Hx].
  destruct (decide (y = x)); [congruence|]. by rewrite IH.
Qed.

Lemma list_remove_present `{EqDecision X} (x : X) (l : list X) :
  x ∈ l → ∃ l', list_remove x l = Ret l' ∧ length l = S (length l').
Proof.
  induction l as [|y l IH]; intros Hx; simpl; [by apply elem_of_nil in Hx|].
  destruct (decide (y = x)); [eauto|].
  apply elem_of_cons in Hx as [->|Hx]; [done|].
  destruct (IH Hx) as (l' & -> & Hlen). eexists; split; [done|]. simpl. lia.
Qed.

Lemma list_contains_spec `{EqDecision X} (x : X) (l : list X) :
  list_contains x l = true ↔ x ∈ l.
Proof. unfold list_contains. apply bool_decide_eq_true. Qed.

Lemma filter_all {X} (P : X → Prop) `{∀ x, Decision (P x)} (l : list X) :
  Forall P l → filter P l = l.
Proof.
  induction 1 as [|x l Hx _ IH]; [done|].
  by rewrite filter_cons_True, IH.
Qed.

(** ** Room registry *)

Section ConnectionManager_properties.

Import ConnectionManager.

(** What [disconnect] does when the room has no entry, in closed form. *)
Lemma disconnect_unknown_room
    (websocket : WebSocket) (room user_id : string) (s : ConnectionManager) :
  active_connections s !! room = None →
  disconnect websocket room user_id s =
    match list_remove room (get_rooms_for_user user_id s) with
    | Ret rooms' =>
        (Ret tt, {| active_connections := <[room := []]> (active_connections s);
                    user_rooms := <[user_id := rooms']> (user_rooms s) |})
    | Raise e =>
        (Raise e, {| active_connections := <[room := []]> (active_connections s);
                     user_rooms := match user_rooms s !! user_id with
                                   | Some _ => user_rooms s
                                   | None => <[user_id := []]> (user_rooms s)
                                   end |})
    end.
Proof.
  intros Hroom. unfold disconnect, get_rooms_for_user, dict_get_default.
  unfold active_connections_getitem, user_rooms_getitem, defaultdict_getitem.
  py_unfold. rewrite Hroom. simpl.
  destruct (user_rooms s !! user_id) as [rooms|] eqn:Hu; simpl.
  - destruct (list_remove room rooms); reflexivity.
  - reflexivity.
Qed.

(** C10.  When the room has no entry in [active_connections], the
    membership test of [disconnect] inserts an empty subscriber list under
    that room, and the entry stays; the registry is therefore changed by
    the call, also when the call fails; and the call raises [ValueError]
    whenever the room is absent from the user's membership list as well. *)
Theorem cm_disconnect_unknown_room_mutates
    (websocket : WebSocket) (room user_id : string) (s : ConnectionManager) :
  active_connections s !! room = None →
  let s' := exec (disconnect websocket room user_id) s in
  active_connections s' = <[room := []]> (active_connections s)
  ∧ active_connections s' !! room = Some []
  ∧ s' ≠ s
  ∧ (room ∉ get_rooms_for_user user_id s →
     result (disconnect websocket room user_id) s = Raise ValueError).
Proof.
  intros Hroom.
  pose proof (disconnect_unknown_room websocket room user_id s Hroom) as Hrun.
  assert (Hact : active_connections (exec (disconnect websocket room user_id) s)
                 = <[room := []]> (active_connections s)).
  { unfold exec. rewrite Hrun. by destruct (list_remove _ _). }
  simpl. split_and!.
  - exact Hact.
  - rewrite Hact. apply lookup_insert_eq.
  - intros Heq. rewrite Heq in Hact.
    apply (f_equal (λ m, m !! room)) in Hact.
    rewrite lookup_insert_eq, Hroom in Hact. done.
  - intros Habs. unfold result. rewrite Hrun, (list_remove_absent _ _ Habs). done.
Qed.

Lemma cm_disconnect_unknown_room_mutates_witness :
  active_connections init !! "lobby" = None
  ∧ active_connections (exec (disconnect 7 "lobby" "alice") init) !! "lobby" = Some []
  ∧ result (disconnect 7 "lobby" "alice") init = Raise ValueError.
Proof.
  split; [reflexivity|].
  destruct (cm_disconnect_unknown_room_mutates 7 "lobby" "alice" init eq_refl)
    as (_ & Hentry & _ & Hraise).
  split; [exact Hentry|]. apply Hraise. apply not_elem_of_nil.
Defined.

(** Removing a room that is not in the user's list raises, whatever the
    state of the room. *)
Lemma disconnect_absent_room_raises
    (websocket : WebSocket) (room user_id : string) (s : ConnectionManager) :
  room ∉ get_rooms_for_user user_id s →
  result (disconnect websocket room user_id) s = Raise ValueError.
Proof.
  intros Habs.
  assert (Htail : ∀ s1, user_rooms s1 = user_rooms s →
    fst ((do rooms <- user_rooms_getitem user_id;
          do rooms' <- lift (list_remove room rooms);
          set_user_rooms user_id rooms') s1) = Raise ValueError).
  { intros s1 Hs1. unfold user_rooms_getitem, defaultdict_getitem. py_unfold.
    rewrite Hs1. unfold get_rooms_for_user, dict_get_default in Habs.
    destruct (user_rooms s !! user_id) as [rooms|]; simpl in *; [|done].
    by rewrite (list_remove_absent _ _ Habs). }
  unfold result, disconnect. unfold bind at 1.
  unfold active_connections_getitem at 1, defaultdict_getitem.
  destruct (active_connections s !! room) as [conns|] eqn:Hroom; simpl.
  - destruct (list_contains websocket conns) eqn:Hin.
    + apply list_contains_spec in Hin.
      destruct (list_remove_present _ _ Hin) as (conns' & Hrm & _).
      unfold bind at 1 2. unfold active_connections_getitem at 1, defaultdict_getitem.
      simpl. rewrite Hroom. unfold bind at 1, lift at 1. rewrite Hrm.
      unfold bind at 1, set_active_connections at 1, modify. simpl.
      unfold bind at 1, active_connections_getitem at 1, defaultdict_getitem. simpl.
      rewrite lookup_insert_eq.
      destruct (bool_decide (conns' = [])).
      * unfold del_active_connections. simpl. rewrite lookup_insert_eq.
        apply Htail; reflexivity.
      * unfold ret at 1. apply Htail; reflexivity.
    + unfold bind at 1, ret at 1. apply Htail; reflexivity.
  - unfold bind at 1, ret at 1. apply Htail; reflexivity.
Qed.

(** C3, on the code: disconnecting a handle from a room and a user that
    were never registered raises [ValueError], and leaves an empty entry
    under the room and under the user. *)
Theorem cm_disconnect_unregistered_raises :
  disconnect 7 "lobby" "alice" init =
    (Raise ValueError,
     {| active_connections := {["lobby" := []]}; user_rooms := {["alice" := []]} |}).
Proof. vm_compute. reflexivity. Qed.

(** The guarded removal of the [unsubscribe] endpoint of the same file
    does nothing on the same input. *)
Lemma unsubscribe_unregistered_noop :
  unsubscribe_user_from_room "lobby" "alice" init = (Ret false, init).
Proof. vm_compute. reflexivity. Qed.

(** A bare loop of sends stops at the first closed handle: the handles
    behind it are never attempted. *)
Lemma send_loop_stops (message : string) (pre : list WebSocket) :
  ∀ (h : WebSocket) (rest : list WebSocket) (w : World),
    (∀ x, x ∈ pre → x ∉ closed w) → h ∈ closed w →
    for_each (pre ++ h :: rest) (λ connection, send_text connection message) w =
      (Raise DeliveryFailure,
       {| manager := manager w; closed := closed w;
          attempts := attempts w ++ ((λ c, (c, message)) <$> (pre ++ [h])) |}).
Proof.
  induction pre as [|x pre IH]; intros h rest w Hpre Hh; simpl.
  - unfold bind, send_text, list_contains.
    by rewrite bool_decide_eq_true_2.
  - unfold bind at 1, send_text at 1, list_contains.
    rewrite bool_decide_eq_false_2 by (apply Hpre; left).
    rewrite IH; simpl.
    + by rewrite <- app_assoc.
    + intros y Hy. apply Hpre. by right.
    + done.
Qed.

Lemma broadcast_stops_at_first_failure
    (message room : string) (w : World) (pre rest : list WebSocket) (h : WebSocket) :
  get_connections_for_room room (manager w) = pre ++ h :: rest →
  (∀ x, x ∈ pre → x ∉ closed w) → h ∈ closed w →
  result (broadcast message room) w = Raise DeliveryFailure
  ∧ attempts (exec (broadcast message room) w)
    = attempts w ++ ((λ c, (c, message)) <$> (pre ++ [h])).
Proof.
  intros Hconns Hpre Hh. unfold result, exec, broadcast, bind, get.
  unfold get_connections_for_room in Hconns. rewrite Hconns.
  by rewrite send_loop_stops.
Qed.

(** The guarded loop attempts every handle and returns. *)
Lemma guarded_loop_attempts_all (message : string) (connections : list WebSocket) :
  ∀ w : World,
    for_each connections (λ connection,
      try_except (send_personal_message message connection) (λ _, ret tt)) w =
      (Ret tt,
       {| manager := manager w; closed := closed w;
          attempts := attempts w ++ ((λ c, (c, message)) <$> connections) |}).
Proof.
  induction connections as [|x connections IH]; intros w; simpl.
  - unfold ret. rewrite app_nil_r. by destruct w.
  - unfold bind at 1, try_except, send_personal_message, send_text, ret.
    destruct (list_contains x (closed w)); rewrite IH; simpl;
      by rewrite <- app_assoc.
Qed.

(** C2, on the code: with handles 1 and 2 in the room and the connection
    of handle 1 closed, [broadcast] raises at handle 1 and never attempts
    handle 2; the guarded loop of the [send_personal_message] endpoint of
    the same file attempts both. *)
Theorem cm_broadcast_aborts_on_failure :
  let registry := exec (connect 2 "lobby" "bob") (exec (connect 1 "lobby" "al") init) in
  let w := {| manager := registry; closed := [1]; attempts := [] |} in
  get_connections_for_room "lobby" registry = [1; 2]
  ∧ result (broadcast "hi" "lobby") w = Raise DeliveryFailure
  ∧ attempts (exec (broadcast "hi" "lobby") w) = [(1, "hi")]
  ∧ result (send_personal_message_endpoint "lobby" "hi") w = Ret tt
  ∧ attempts (exec (send_personal_message_endpoint "lobby" "hi") w)
    = [(1, "hi"); (2, "hi")].
Proof. vm_compute. split_and!; reflexivity. Qed.

End ConnectionManager_properties.

(** ** Acknowledged queue *)

Section MessageQueue_properties.

Import MessageQueue.

(** *** The pending index as a dictionary *)

Lemma dict_contains_spec {V} (k : string) (d : dict V) :
  dict_contains k d = true ↔ k ∈ d.*1.
Proof. unfold dict_contains. apply bool_decide_eq_true. Qed.

Lemma dict_pop_present {V} (k : string) (d : dict V) :
  NoDup d.*1 → k ∈ d.*1 →
  ∃ v, (k, v) ∈ d ∧ dict_pop k d = Ret (v, filter (λ kv, kv.1 ≠ k) d).
Proof.
  induction d as [|[k' v'] d IH]; simpl; intros Hnd Hin.
  - by apply elem_of_nil in Hin.
  - apply NoDup_cons in Hnd as [Hk' Hnd].
    destruct (decide (k' = k)) as [->|Hne].
    + exists v'. split; [left|].
      rewrite filter_cons_False by (simpl; auto).
      f_equal. f_equal. symmetry. apply filter_all.
      apply Forall_forall. intros [k2 v2] Hin2. simpl. intros ->.
      apply Hk'. apply list_elem_of_fmap. by exists (k, v2).
    + apply elem_of_cons in Hin as [?|Hin]; [congruence|].
      destruct (IH Hnd Hin) as (v & Hv & ->).
      exists v. split; [by right|].
      by rewrite filter_cons_True by (simpl; auto).
Qed.

Lemma dict_filter_absent {V} (k : string) (d : dict V) :
  k ∉ (filter (λ kv, kv.1 ≠ k) d).*1.
Proof.
  intros Hin. apply list_elem_of_fmap in Hin as ([k' v] & -> & Hin).
  apply list_elem_of_filter in Hin as [Hne _]. by apply Hne.
Qed.

Lemma dict_pop_app {V} (k : string) (v : V) (kept rest : dict V) :
  k ∉ kept.*1 → dict_pop k (kept ++ (k, v) :: rest) = Ret (v, kept ++ rest).
Proof.
  induction kept as [|[k' v'] kept IH]; simpl; intros Hk.
  - by rewrite decide_True.
  - apply not_elem_of_cons in Hk as [Hne Hk].
    rewrite decide_False by done. by rewrite IH.
Qed.

Lemma put_nowait_room (a : addr) (w : World) :
  has_room 1 w → put_nowait a w = (Ret tt, set_queue (queue w ++ [a]) w).
Proof.
  intros Hroom. unfold put_nowait, full.
  destruct (bool_decide (0 < maxsize w)%Z) eqn:H1; simpl; [|done].
  apply bool_decide_eq_true in H1.
  rewrite bool_decide_eq_false_2; [done|]. unfold has_room in Hroom. lia.
Qed.

Lemma requeue_loop (now : Z) (items : dict addr) :
  ∀ (kept : dict addr) (w : World),
    pending_ack w = kept ++ items →
    NoDup (kept ++ items).*1 →
    has_room (length (filter (λ kv, expired now w kv.2 = true) items)) w →
    ∃ w', for_each items (requeue_body now) w = (Ret tt, w')
      ∧ pending_ack w' = kept ++ filter (λ kv, expired now w kv.2 ≠ true) items
      ∧ queue w' = queue w ++ (filter (λ kv, expired now w kv.2 = true) items).*2
      ∧ objects w' = objects w ∧ next_addr w' = next_addr w
      ∧ maxsize w' = maxsize w ∧ ack_timeout w' = ack_timeout w.
Proof.
  induction items as [|[k a] items IH]; intros kept w Hp Hnd Hroom.
  - exists w. simpl. rewrite app_nil_r in *. by rewrite app_nil_r.
  - cbn [for_each]. unfold requeue_body at 1. unfold bind at 1 2. unfold get at 1.
    rewrite filter_cons in Hroom. rewrite !filter_cons.
    cbn [fst snd] in *.
    destruct (decide (expired now w a = true)) as [Hexp|Hexp].
    + rewrite decide_False by auto. rewrite Hexp.
      assert (Hk : k ∉ kept.*1).
      { rewrite fmap_app in Hnd. apply NoDup_app in Hnd as (_ & Hd & _).
        intros Hin. apply (Hd _ Hin). simpl. left. }
      unfold bind at 1. unfold pending_ack_pop. rewrite Hp, dict_pop_app by done.
      set (w1 := set_pending_ack (kept ++ items) w).
      assert (Hroom1 : has_room 1 w1).
      { unfold has_room in *. simpl in *. lia. }
      rewrite (put_nowait_room _ _ Hroom1).
      set (w2 := set_queue (queue w1 ++ [a]) w1).
      destruct (IH kept w2) as (w' & Hrun & Hpend & Hq & Ho & Hn & Hm & Ht).
      * done.
      * rewrite !fmap_app in *. simpl in Hnd.
        apply NoDup_app in Hnd as (H1 & H2 & H3).
        apply NoDup_app. split_and!; [done| |by apply NoDup_cons in H3 as [_ ?]].
        intros x Hx Hx'. apply (H2 x Hx). by right.
      * unfold has_room in *. simpl in *. rewrite length_app. simpl.
        change (expired now w2) with (expired now w). lia.
      * exists w'. change (expired now w2) with (expired now w) in *.
        rewrite Hrun, Hpend, Hq, Ho, Hn, Hm, Ht. simpl.
        rewrite <- app_assoc. done.
    + rewrite decide_True by auto. apply not_true_is_false in Hexp as Hexp'.
      rewrite Hexp'. unfold ret at 1.
      destruct (IH (kept ++ [(k, a)]) w) as (w' & Hrun & Hpend & Hq & Ho & Hn & Hm & Ht).
      * by rewrite <- app_assoc.
      * by rewrite <- app_assoc.
      * done.
      * exists w'. rewrite Hrun, Hpend, Hq. rewrite <- app_assoc. done.
Qed.

(** *** Acknowledgement *)

(** C8.  [acknowledge(id)] returns true exactly when [id] is a key of the
    pending index; it then removes that entry, marks the message
    acknowledged and leaves the queue alone, so that a second call with
    the same id returns false; when [id] is not a key it returns false,
    raises nothing and changes nothing. *)
Theorem mq_acknowledge_spec (w : World) (message_id : string) :
  NoDup (pending_ack w).*1 →
  let w' := exec (acknowledge message_id) w in
  (result (acknowledge message_id) w = Ret true ↔ message_id ∈ (pending_ack w).*1)
  ∧ (message_id ∈ (pending_ack w).*1 →
     ∃ message,
       (message_id, message) ∈ pending_ack w
       ∧ pending_ack w' = filter (λ kv, kv.1 ≠ message_id) (pending_ack w)
       ∧ (message_id ∉ (pending_ack w').*1)
       ∧ acknowledged (objects w' message) = true
       ∧ queue w' = queue w
       ∧ acknowledge message_id w' = (Ret false, w'))
  ∧ (message_id ∉ (pending_ack w).*1 →
     acknowledge message_id w = (Ret false, w)).
Proof.
  intros Hnd w'.
  assert (Habsent : ∀ v : World, message_id ∉ (pending_ack v).*1 →
                    acknowledge message_id v = (Ret false, v)).
  { intros v Hv. unfold acknowledge. py_unfold.
    destruct (dict_contains message_id (pending_ack v)) eqn:Hc; [|done].
    by apply dict_contains_spec in Hc. }
  assert (Hpresent : message_id ∈ (pending_ack w).*1 →
    ∃ message, (message_id, message) ∈ pending_ack w ∧
      acknowledge message_id w =
        (Ret true, exec (Message_acknowledge message)
           (set_pending_ack (filter (λ kv, kv.1 ≠ message_id) (pending_ack w)) w))).
  { intros Hin. destruct (dict_pop_present _ _ Hnd Hin) as (a & Ha & Hpop).
    exists a. split; [done|].
    unfold acknowledge, pending_ack_pop. py_unfold.
    apply dict_contains_spec in Hin. rewrite Hin, Hpop. reflexivity. }
  split_and!.
  - split.
    + intros Hr. destruct (decide (message_id ∈ (pending_ack w).*1)) as [|Hn]; [done|].
      unfold result in Hr. rewrite (Habsent _ Hn) in Hr. discriminate.
    + intros Hin. destruct (Hpresent Hin) as (a & _ & Hrun).
      unfold result. by rewrite Hrun.
  - intros Hin. destruct (Hpresent Hin) as (a & Ha & Hrun).
    exists a. subst w'. unfold exec at 1 2 3 4 5 6. rewrite Hrun. simpl.
    split_and!; try done.
    + apply dict_filter_absent.
    + unfold Message_acknowledge. py_unfold. simpl. by rewrite decide_True.
    + apply Habsent. simpl. apply dict_filter_absent.
  - apply Habsent.
Qed.

Lemma mq_acknowledge_spec_witness :
  let w := run [(0%Z, Enqueue "u1" "a" 0); (1%Z, Dequeue)] (init 10) in
  NoDup (pending_ack w).*1
  ∧ result (acknowledge "u1") w = Ret true
  ∧ result (acknowledge "u1") (exec (acknowledge "u1") w) = Ret false.
Proof.
  set (w := run [(0%Z, Enqueue "u1" "a" 0); (1%Z, Dequeue)] (init 10)).
  assert (Hnd : NoDup (pending_ack w).*1)
    by compute_done.
  assert (Hin : "u1" ∈ (pending_ack w).*1)
    by compute_done.
  destruct (mq_acknowledge_spec w "u1" Hnd) as (Hiff & Hpresent & _).
  simpl. split_and!; [exact Hnd|by apply Hiff|].
  destruct (Hpresent Hin) as (message & _ & _ & _ & _ & _ & Hagain).
  unfold result. by rewrite Hagain.
Defined.

(** *** Enqueue on a bounded queue *)

(** C1, as stated, fails: on a queue of capacity 1 that holds one message,
    [enqueue] returns a message to its caller exactly as on success (no
    [Full] reaches the caller), and the message has been created. *)
Lemma mq_enqueue_full_no_signal :
  let w := run [(0%Z, Enqueue "u1" "a" 0)] (init 1) in
  let w' := exec (enqueue "u2" 1 "b" 0) w in
  maxsize w = 1%Z ∧ length (queue w) = 1
  ∧ result (enqueue "u2" 1 "b" 0) w = Ret 1
  ∧ result (enqueue "u2" 1 "b" 0) w ≠ Raise queue_Full
  ∧ next_addr w' = S (next_addr w)
  ∧ id (objects w' 1) = "u2".
Proof. vm_compute. split_and!; done. Qed.

(** C1, amended.  On a queue of capacity [maxsize > 0], [enqueue] always
    creates the message and returns it; when the queue already holds
    [maxsize] messages the queue and the pending index are unchanged (the
    message is not retained), otherwise the message is appended at the
    tail of the queue. *)
Theorem mq_enqueue_bounded
    (w : World) (uuid : string) (now : Z) (content : string) (priority : Z) :
  (0 < maxsize w)%Z →
  let message := next_addr w in
  let w' := exec (enqueue uuid now content priority) w in
  result (enqueue uuid now content priority) w = Ret message
  ∧ objects w' message = mkMessage uuid content priority now false
  ∧ next_addr w' = S message
  ∧ pending_ack w' = pending_ack w
  ∧ ((maxsize w <= Z.of_nat (length (queue w)))%Z → queue w' = queue w)
  ∧ ((Z.of_nat (length (queue w)) < maxsize w)%Z → queue w' = queue w ++ [message]).
Proof.
  intros Hmax message w'. subst w'.
  unfold enqueue, Message_new, put_nowait, full. py_unfold. simpl.
  rewrite (bool_decide_eq_true_2 _ Hmax). simpl.
  destruct (bool_decide (maxsize w <= Z.of_nat (length (queue w)))%Z) eqn:Hfull; simpl.
  - apply bool_decide_eq_true in Hfull.
    rewrite decide_True by done. split_and!; try done; lia.
  - apply bool_decide_eq_false in Hfull.
    rewrite decide_True by done. split_and!; try done; lia.
Qed.

Lemma mq_enqueue_bounded_witness :
  let w := run [(0%Z, Enqueue "u1" "a" 0)] (init 1) in
  (0 < maxsize w)%Z
  ∧ result (enqueue "u2" 1 "b" 0) w = Ret 1
  ∧ queue (exec (enqueue "u2" 1 "b" 0) w) = queue w.
Proof.
  set (w := run [(0%Z, Enqueue "u1" "a" 0)] (init 1)).
  assert (Hmax : (0 < maxsize w)%Z) by (vm_compute; reflexivity).
  destruct (mq_enqueue_bounded w "u2" 1 "b" 0 Hmax) as (Hres & _ & _ & _ & Hfull & _).
  simpl. split_and!; [exact Hmax|exact Hres|].
  apply Hfull. vm_compute. discriminate.
Defined.

(** *** Redelivery *)

(** C4, as stated, fails: a message created at time 0 and dequeued at
    time 100 is requeued by a scan at time 110, ten seconds after the
    dequeue; its only time stamp is still the creation time. *)
Lemma mq_requeue_ignores_dequeue_time :
  let dequeue_time := 100%Z in
  let now := 110%Z in
  let w := run [(0%Z, Enqueue "u1" "hello" 0); (dequeue_time, Dequeue)] (init 10) in
  let w' := run [(now, Requeue)] w in
  pending_ack w = [("u1", 0)]
  ∧ timestamp (objects w 0) = 0%Z
  ∧ ¬ (now - dequeue_time > ack_timeout w)%Z
  ∧ queue w' = [0] ∧ pending_ack w' = [].
Proof. vm_compute. split_and!; try done. Qed.

(** C4, amended.  [enqueue] stamps the message with the time of its
    creation; [dequeue] moves the head of the queue into the pending index
    under its id and records no time; a pending message is eligible for
    redelivery when it is not acknowledged and [now - timestamp >
    ack_timeout], the timestamp being the creation time; and, when the queue
    has room for them, [requeue_unacknowledged] moves exactly the eligible
    entries from the pending index to the tail of the queue, in the order
    of the index. *)
Theorem mq_requeue_by_creation_time (w : World) (now : Z) :
  (∀ uuid t content priority,
     timestamp (objects (exec (enqueue uuid t content priority) w) (next_addr w)) = t)
  ∧ (∀ a rest, queue w = a :: rest →
       dequeue w =
         (Ret (Some a),
          set_pending_ack (dict_setitem (id (objects w a)) a (pending_ack w))
            (set_queue rest w)))
  ∧ (∀ a, expired now w a = true ↔
          acknowledged (objects w a) = false
          ∧ (now - timestamp (objects w a) > ack_timeout w)%Z)
  ∧ (NoDup (pending_ack w).*1 →
     has_room (length (filter (λ kv, expired now w kv.2 = true) (pending_ack w))) w →
     ∃ w', requeue_unacknowledged now w = (Ret tt, w')
       ∧ pending_ack w' = filter (λ kv, expired now w kv.2 ≠ true) (pending_ack w)
       ∧ queue w' =
           queue w ++ (filter (λ kv, expired now w kv.2 = true) (pending_ack w)).*2
       ∧ objects w' = objects w).
Proof.
  split_and!.
  - intros uuid t content priority.
    unfold enqueue, Message_new, put_nowait. py_unfold.
    destruct (full _); simpl; by rewrite decide_True.
  - intros a rest Hq. unfold dequeue, queue_get. py_unfold. by rewrite Hq.
  - intros a. unfold expired. rewrite andb_true_iff, negb_true_iff, bool_decide_eq_true.
    done.
  - intros Hnd Hroom.
    destruct (requeue_loop now (pending_ack w) [] w eq_refl Hnd Hroom)
      as (w' & Hrun & Hp & Hq & Ho & _).
    exists w'. unfold requeue_unacknowledged. py_unfold. by rewrite Hrun.
Qed.

Lemma mq_requeue_by_creation_time_witness :
  let w := run [(0%Z, Enqueue "u1" "a" 0); (1%Z, Enqueue "u2" "b" 0);
                (80%Z, Enqueue "u3" "c" 0); (90%Z, Dequeue); (91%Z, Dequeue);
                (92%Z, Dequeue)] (init 10) in
  ∃ w', requeue_unacknowledged 100 w = (Ret tt, w')
    ∧ pending_ack w' = [("u3", 2)]
    ∧ queue w' = [0; 1].
Proof.
  set (w := run _ _).
  destruct (mq_requeue_by_creation_time w 100) as (_ & _ & _ & Hrequeue).
  destruct Hrequeue as (w' & Hrun & Hp & Hq & _).
  - compute_done.
  - vm_compute. right. discriminate.
  - exists w'. split_and!; [exact Hrun|exact Hp|exact Hq].
Defined.

(** C5, on the code: with capacity 1, one message pending and another one
    in the queue, the scan removes the expired message from the pending
    index, [put_nowait] raises [Full], and the message is left in neither
    structure. *)
Lemma mq_requeue_full_loses_message :
  let w := run [(0%Z, Enqueue "u1" "a" 0); (1%Z, Dequeue);
                (2%Z, Enqueue "u2" "b" 0)] (init 1) in
  let w' := exec (requeue_unacknowledged 100) w in
  queue w = [1] ∧ pending_ack w = [("u1", 0)]
  ∧ expired 100 w 0 = true
  ∧ result (requeue_unacknowledged 100) w = Raise queue_Full
  ∧ queue w' = [1] ∧ pending_ack w' = []
  ∧ acknowledged (objects w' 0) = false.
Proof. vm_compute. split_and!; done. Qed.

(** *** The invariant of the acknowledged queue *)

Lemma NoDup_keys_filter {V} (P : string * V → Prop) `{∀ x, Decision (P x)}
    (d : dict V) :
  NoDup d.*1 → NoDup (filter P d).*1.
Proof.
  intros Hnd. eapply sublist_NoDup; [exact Hnd|].
  apply fmap_sublist, sublist_filter.
Qed.

Lemma NoDup_keys_unique {V} (d : dict V) (k : string) (v1 v2 : V) :
  NoDup d.*1 → (k, v1) ∈ d → (k, v2) ∈ d → v1 = v2.
Proof.
  induction d as [|[k' v'] d IH]; simpl; intros Hnd H1 H2.
  - by apply elem_of_nil in H1.
  - apply NoDup_cons in Hnd as [Hk Hnd].
    apply elem_of_cons in H1 as [H1|H1]; apply elem_of_cons in H2 as [H2|H2];
      simplify_eq; auto.
    + destruct Hk. apply list_elem_of_fmap. eexists; split; [|eassumption]. done.
    + destruct Hk. apply list_elem_of_fmap. eexists; split; [|eassumption]. done.
Qed.

Lemma dict_setitem_fresh {V} (k : string) (v : V) (d : dict V) :
  k ∉ d.*1 → dict_setitem k v d = d ++ [(k, v)].
Proof.
  induction d as [|[k' v'] d IH]; simpl; intros Hk; [done|].
  apply not_elem_of_cons in Hk as [Hne Hk].
  rewrite decide_False by done. by rewrite IH.
Qed.

Lemma inv_init (max_size : Z) : invariant [] (init max_size).
Proof.
  constructor; simpl; try (by constructor); try (intros; lia).
  - intros a Ha. by apply elem_of_nil in Ha.
  - intros a [Ha|Ha]; by apply elem_of_nil in Ha.
  - intros k a Ha. by apply elem_of_nil in Ha.
Qed.

(** Dropping entries from the pending index. *)
Lemma inv_drop_pending (issued : list string) (w : World)
    (P : string * addr → Prop) `{∀ x, Decision (P x)} :
  invariant issued w →
  invariant issued (set_pending_ack (filter P (pending_ack w)) w).
Proof.
  intros [].
  assert (Hsub : ∀ a, a ∈ (filter P (pending_ack w)).*2 → a ∈ (pending_ack w).*2).
  { intros a ([k a'] & -> & [_ Hin]%list_elem_of_filter)%list_elem_of_fmap.
    apply list_elem_of_fmap. by exists (k, a'). }
  constructor; simpl; auto.
  - by apply NoDup_keys_filter.
  - intros a Ha Hp. eapply inv_disjoint0; eauto.
  - intros a [Ha|Ha]; auto.
  - intros a [Ha|Ha]; auto.
  - intros k a [_ Hin]%list_elem_of_filter. auto.
Qed.

(** Moving one pending entry back to the tail of the queue. *)
Lemma inv_requeue_one (issued : list string) (w : World) (k : string) (a : addr) :
  invariant issued w → (k, a) ∈ pending_ack w →
  invariant issued
    (set_queue (queue w ++ [a])
       (set_pending_ack (filter (λ kv, kv.1 ≠ k) (pending_ack w)) w)).
Proof.
  intros Hinv Hin.
  pose proof (inv_drop_pending issued w (λ kv, kv.1 ≠ k) Hinv) as [].
  destruct Hinv as [Hq Hk Hd Ha Hu Hkey Hiss Hinj].
  assert (Hpa : a ∈ (pending_ack w).*2).
  { apply list_elem_of_fmap. by exists (k, a). }
  assert (Hgone : a ∉ (filter (λ kv, kv.1 ≠ k) (pending_ack w)).*2).
  { intros ([k' a'] & Heq & [Hne Hin']%list_elem_of_filter)%list_elem_of_fmap.
    simpl in *. subst a'. apply Hne.
    transitivity (id (objects w a)); [symmetry|]; by apply Hkey. }
  simpl in *. constructor; simpl; auto.
  - apply NoDup_app. split_and!; [done| |apply NoDup_singleton].
    intros x Hx Hxa%list_elem_of_singleton. subst x. by apply (Hd a).
  - intros x [Hx| ->%list_elem_of_singleton]%elem_of_app; auto.
  - intros x [[Hx| ->%list_elem_of_singleton]%elem_of_app|Hx]; auto.
  - intros x [[Hx| ->%list_elem_of_singleton]%elem_of_app|Hx]; auto.
Qed.

(** Marking a message that sits in neither structure. *)
Lemma inv_mark (issued : list string) (w : World) (a : addr) :
  invariant issued w → a ∉ queue w → a ∉ (pending_ack w).*2 →
  invariant issued (exec (Message_acknowledge a) w).
Proof.
  intros [Hq Hk Hd Ha Hu Hkey Hiss Hinj] Hnq Hnp.
  assert (Hid : ∀ x, id (objects (exec (Message_acknowledge a) w) x) = id (objects w x)).
  { intros x. unfold Message_acknowledge. py_unfold. simpl.
    destruct (decide (x = a)); by subst. }
  assert (Hack : ∀ x, x ≠ a →
            acknowledged (objects (exec (Message_acknowledge a) w) x)
            = acknowledged (objects w x)).
  { intros x Hx. unfold Message_acknowledge. py_unfold. simpl.
    by rewrite decide_False. }
  constructor; try (intros; rewrite ?Hid; eauto; fail); auto.
  - intros x Hx. rewrite Hack; [auto|]. intros ->. destruct Hx; auto.
  - intros x y Hx Hy. rewrite !Hid. by apply Hinj.
Qed.

Lemma enqueue_eq (uuid : string) (now : Z) (content : string) (priority : Z) (w : World) :
  let a := next_addr w in
  let m := mkMessage uuid content priority now false in
  let w1 := set_objects (λ x, if decide (x = a) then m else objects w x) (S a) w in
  enqueue uuid now content priority w =
    (Ret a, if full w then w1 else set_queue (queue w ++ [a]) w1).
Proof.
  simpl. unfold enqueue, Message_new, put_nowait. py_unfold.
  change (full (set_objects _ _ w)) with (full w). by destruct (full w).
Qed.

Lemma inv_enqueue (issued : list string) (w : World)
    (uuid : string) (now : Z) (content : string) (priority : Z) :
  invariant issued w → uuid ∉ issued →
  invariant (issued ++ [uuid]) (exec (enqueue uuid now content priority) w).
Proof.
  intros [Hq Hk Hd Ha Hu Hkey Hiss Hinj] Hfresh.
  unfold exec. rewrite enqueue_eq. cbn [snd].
  set (a := next_addr w).
  set (m := mkMessage uuid content priority now false).
  set (o := λ x, if decide (x = a) then m else objects w x).
  assert (Ho : ∀ x, x < a → o x = objects w x).
  { intros x Hx. unfold o. rewrite decide_False; [done|lia]. }
  assert (Hoa : o a = m) by (unfold o; by rewrite decide_True).
  assert (Hnq : a ∉ queue w) by (intros Hin; specialize (Ha a (or_introl Hin)); lia).
  assert (Hnp : a ∉ (pending_ack w).*2)
    by (intros Hin; specialize (Ha a (or_intror Hin)); lia).
  assert (Hbase : invariant (issued ++ [uuid]) (set_objects o (S a) w)).
  { constructor; simpl; auto.
    - intros x Hx. specialize (Ha x Hx). fold a in Ha. lia.
    - intros x Hx. rewrite Ho; auto.
    - intros k x Hin. rewrite Ho; auto.
      apply Ha. right. apply list_elem_of_fmap. by exists (k, x).
    - intros x Hx. destruct (decide (x = a)) as [->|Hne].
      + rewrite Hoa. simpl. apply elem_of_app. right. by left.
      + rewrite Ho by lia. apply elem_of_app. left. apply Hiss. fold a. lia.
    - intros x y Hx Hy.
      destruct (decide (x = a)) as [->|Hxa]; destruct (decide (y = a)) as [->|Hya];
        rewrite ?Hoa, ?Ho by lia; simpl; try done.
      + intros Hid. destruct Hfresh. rewrite Hid. apply Hiss. fold a. lia.
      + intros Hid. destruct Hfresh. rewrite <- Hid. apply Hiss. fold a. lia.
      + apply Hinj; fold a; lia. }
  destruct (full w); [done|].
  destruct Hbase as [Hq' Hk' Hd' Ha' Hu' Hkey' Hiss' Hinj'].
  simpl in *. constructor; simpl; auto.
  - apply NoDup_app. split_and!; [done| |apply NoDup_singleton].
    intros x Hx Hxa%list_elem_of_singleton. by subst x.
  - intros x [Hx| ->%list_elem_of_singleton]%elem_of_app; auto.
  - intros x [[Hx| ->%list_elem_of_singleton]%elem_of_app|Hx]; auto.
  - intros x [[Hx| ->%list_elem_of_singleton]%elem_of_app|Hx]; auto.
    by rewrite Hoa.
Qed.

Lemma dequeue_eq (w : World) :
  dequeue w =
    match queue w with
    | [] => (Ret None, w)
    | a :: rest =>
        (Ret (Some a),
         set_pending_ack (dict_setitem (id (objects w a)) a (pending_ack w))
           (set_queue rest w))
    end.
Proof. unfold dequeue, queue_get. py_unfold. by destruct (queue w). Qed.

Lemma inv_dequeue (issued : list string) (w : World) :
  invariant issued w → invariant issued (exec dequeue w).
Proof.
  intros Hinv. unfold exec. rewrite dequeue_eq.
  destruct (queue w) as [|a rest] eqn:Hqueue; [done|]. cbn [snd].
  destruct Hinv as [Hq Hk Hd Ha Hu Hkey Hiss Hinj]. rewrite Hqueue in *.
  apply NoDup_cons in Hq as [Hnotin Hq].
  assert (Hfresh : id (objects w a) ∉ (pending_ack w).*1).
  { intros ([k b] & Hkb & Hin)%list_elem_of_fmap. simpl in Hkb.
    assert (Hb : b ∈ (pending_ack w).*2) by (apply list_elem_of_fmap; by exists (k, b)).
    assert (a = b).
    { apply Hinj.
      - apply Ha. left. left.
      - apply Ha. by right.
      - rewrite (Hkey _ _ Hin). done. }
    subst b. apply (Hd a); [left|done]. }
  rewrite (dict_setitem_fresh _ _ _ Hfresh).
  constructor; simpl; auto.
  - rewrite fmap_app. apply NoDup_app. split_and!; [done| |apply NoDup_singleton].
    intros x Hx Hxa%list_elem_of_singleton. by subst x.
  - intros x Hx. rewrite fmap_app. intros [Hp| ->%list_elem_of_singleton]%elem_of_app.
    + apply (Hd x); [by right|done].
    + done.
  - intros x [Hx|Hx]; [apply Ha; left; by right|].
    rewrite fmap_app in Hx. apply elem_of_app in Hx as [Hx| ->%list_elem_of_singleton].
    + apply Ha. by right.
    + apply Ha. left. left.
  - intros x [Hx|Hx]; [apply Hu; left; by right|].
    rewrite fmap_app in Hx. apply elem_of_app in Hx as [Hx| ->%list_elem_of_singleton].
    + apply Hu. by right.
    + apply Hu. left. left.
  - intros k x [Hin|Hin%list_elem_of_singleton]%elem_of_app; [auto|]. by simplify_eq.
Qed.

Lemma acknowledge_eq (w : World) (message_id : string) :
  NoDup (pending_ack w).*1 →
  ((message_id ∉ (pending_ack w).*1) ∧ acknowledge message_id w = (Ret false, w))
  ∨ (∃ message, (message_id, message) ∈ pending_ack w
       ∧ acknowledge message_id w =
           (Ret true,
            exec (Message_acknowledge message)
              (set_pending_ack
                 (filter (λ kv, kv.1 ≠ message_id) (pending_ack w)) w))).
Proof.
  intros Hnd. unfold acknowledge, pending_ack_pop. py_unfold.
  destruct (dict_contains message_id (pending_ack w)) eqn:Hc.
  - right. apply dict_contains_spec in Hc.
    destruct (dict_pop_present _ _ Hnd Hc) as (a & Ha & ->). by exists a.
  - left. split; [|done]. intros Hin%dict_contains_spec. congruence.
Qed.

Lemma inv_acknowledge (issued : list string) (w : World) (message_id : string) :
  invariant issued w → invariant issued (exec (acknowledge message_id) w).
Proof.
  intros Hinv.
  destruct (acknowledge_eq w message_id (inv_pending_keys _ _ Hinv))
    as [[_ Heq]|(a & Hin & Heq)]; unfold exec at 1; rewrite Heq; cbn [snd]; [done|].
  pose proof (inv_requeue_one issued w message_id a Hinv Hin) as Hone.
  pose proof (inv_drop_pending issued w (λ kv, kv.1 ≠ message_id) Hinv) as Hdrop.
  apply inv_mark; [done| |].
  - simpl. intros Hq. destruct Hinv. apply (inv_disjoint0 a Hq).
    apply list_elem_of_fmap. by exists (message_id, a).
  - simpl. intros Hp. destruct Hone as [_ _ Hd _ _ _ _ _]. simpl in Hd.
    apply (Hd a); [|done]. apply elem_of_app. right. by left.
Qed.

Lemma inv_requeue_loop (issued : list string) (now : Z) (items : dict addr) :
  ∀ w, invariant issued w →
       (∀ item, item ∈ items → item ∈ pending_ack w) →
       NoDup items.*1 →
       invariant issued (exec (for_each items (requeue_body now)) w).
Proof.
  induction items as [|[k a] items IH]; intros w Hinv Hsub Hnd; [done|].
  rewrite fmap_cons in Hnd. apply NoDup_cons in Hnd as [Hk Hnd]. simpl in Hk.
  assert (Hin : (k, a) ∈ pending_ack w) by (apply Hsub; left).
  unfold exec. cbn [for_each]. unfold requeue_body at 1, bind at 1 2. unfold get at 1.
  cbn [fst snd].
  destruct (expired now w a).
  - unfold bind at 1. unfold pending_ack_pop.
    destruct (dict_pop_present k (pending_ack w) (inv_pending_keys _ _ Hinv))
      as (a' & Ha' & ->).
    { apply list_elem_of_fmap. by exists (k, a). }
    assert (a' = a).
    { eapply NoDup_keys_unique; [eapply inv_pending_keys, Hinv|done..]. }
    subst a'. unfold put_nowait.
    destruct (full _).
    + cbn [snd]. exact (inv_drop_pending issued w (λ kv, kv.1 ≠ k) Hinv).
    + apply IH; [exact (inv_requeue_one issued w k a Hinv Hin)| |done].
      intros [k' a'] Hitem. simpl. apply list_elem_of_filter. split.
      * simpl. intros ->. apply Hk. apply list_elem_of_fmap. by exists (k, a').
      * apply Hsub. by right.
  - unfold ret at 1. apply IH; [done| |done]. intros item Hitem. apply Hsub. by right.
Qed.

Lemma inv_requeue (issued : list string) (w : World) (now : Z) :
  invariant issued w → invariant issued (exec (requeue_unacknowledged now) w).
Proof.
  intros Hinv. unfold requeue_unacknowledged. unfold exec, bind, get.
  apply inv_requeue_loop; [done|auto|by apply inv_pending_keys with issued].
Qed.

Lemma uuids_cons (t : Z) (c : call) (trace : list (Z * call)) :
  uuids ((t, c) :: trace) =
    match c with
    | Enqueue uuid _ _ => uuid :: uuids trace
    | _ => uuids trace
    end.
Proof. by destruct c. Qed.

Lemma inv_step (issued : list string) (w : World) (t : Z) (c : call) :
  invariant issued w → NoDup (issued ++ uuids [(t, c)]) →
  invariant (issued ++ uuids [(t, c)]) (exec (step t c) w).
Proof.
  intros Hinv Hnd. rewrite uuids_cons in *.
  destruct c as [uuid content priority| |message_id|]; simpl;
    rewrite ?exec_bind_ret, ?app_nil_r.
  - apply inv_enqueue; [done|].
    apply NoDup_app in Hnd as (_ & Hd & _).
    intros Hin. apply (Hd _ Hin). left.
  - by apply inv_dequeue.
  - by apply inv_acknowledge.
  - by apply inv_requeue.
Qed.

Lemma inv_run (trace : list (Z * call)) :
  ∀ issued w,
    invariant issued w → NoDup (issued ++ uuids trace) →
    invariant (issued ++ uuids trace) (run trace w).
Proof.
  induction trace as [|[t c] trace IH]; intros issued w Hinv Hnd.
  - simpl. by rewrite app_nil_r.
  - change (run ((t, c) :: trace) w) with (run trace (exec (step t c) w)).
    assert (Hsplit : uuids ((t, c) :: trace) = uuids [(t, c)] ++ uuids trace).
    { rewrite !uuids_cons. by destruct c. }
    rewrite Hsplit, app_assoc in *.
    apply IH; [|done]. apply inv_step; [done|].
    by apply NoDup_app in Hnd as (? & _ & _).
Qed.

(** C6.  Along every sequence of [enqueue], [dequeue], [acknowledge] and
    [requeue_unacknowledged] calls in which [uuid4] never repeats an
    identifier, no message is in the queue twice, no message is both in
    the queue and in the pending index, an acknowledged message is in
    neither, and no identifier of a queued message is a key of the pending
    index. *)
Theorem mq_state_exclusive (max_size : Z) (trace : list (Z * call)) :
  NoDup (uuids trace) →
  let w := run trace (init max_size) in
  NoDup (queue w)
  ∧ NoDup (pending_ack w).*1
  ∧ (∀ a, a ∈ queue w → a ∉ (pending_ack w).*2)
  ∧ (∀ a, acknowledged (objects w a) = true →
          (a ∉ queue w) ∧ (a ∉ (pending_ack w).*2))
  ∧ (∀ a, a ∈ queue w → id (objects w a) ∉ (pending_ack w).*1).
Proof.
  intros Hnd w.
  pose proof (inv_run trace [] (init max_size) (inv_init max_size) Hnd) as Hinv.
  fold w in Hinv. destruct Hinv as [Hq Hk Hd Ha Hu Hkey Hiss Hinj].
  split_and!; auto.
  - intros a Hack. split; intros Hin.
    + rewrite Hu in Hack by auto. done.
    + rewrite Hu in Hack by auto. done.
  - intros a Hin ([k b] & Hkb & Hp)%list_elem_of_fmap. simpl in Hkb.
    assert (Hb : b ∈ (pending_ack w).*2) by (apply list_elem_of_fmap; by exists (k, b)).
    assert (a = b).
    { apply Hinj; auto. rewrite (Hkey _ _ Hp). done. }
    subst b. by apply (Hd a).
Qed.

Lemma mq_state_exclusive_witness :
  let trace := [(0%Z, Enqueue "u1" "a" 0); (1%Z, Dequeue);
                (2%Z, Enqueue "u2" "b" 0); (3%Z, Acknowledge "u1");
                (4%Z, Dequeue); (100%Z, Requeue)] in
  NoDup (uuids trace)
  ∧ ∀ a, a ∈ queue (run trace (init 1)) →
         a ∉ (pending_ack (run trace (init 1))).*2.
Proof.
  set (trace := [(0%Z, Enqueue "u1" "a" 0); (1%Z, Dequeue);
                 (2%Z, Enqueue "u2" "b" 0); (3%Z, Acknowledge "u1");
                 (4%Z, Dequeue); (100%Z, Requeue)]).
  assert (Hnd : NoDup (uuids trace)).
  { compute_done. }
  simpl. split; [exact Hnd|].
  destruct (mq_state_exclusive 1 trace Hnd) as (_ & _ & Hdisjoint & _).
  exact Hdisjoint.
Defined.

End MessageQueue_properties.

(** ** The heap of [heapq] *)

Section heapq_properties.

Import heapq.

Context {A : Type}.
Variable payload_eq : A -> A -> bool.
Variable payload_lt : A -> A -> outcome bool.

Local Abbreviation entry := (Z * nat * A)%type (only parsing).

Lemma parent_lt (i : nat) : 0 < i → parent i < i.
Proof.
  intros Hi. unfold parent.
  pose proof (Nat.div_mod_eq (i - 1) 2). pose proof (Nat.mod_upper_bound (i - 1) 2).
  lia.
Qed.

Lemma parent_children (i p : nat) :
  0 < i → (parent i = p ↔ i = 2 * p + 1 ∨ i = 2 * p + 2).
Proof.
  intros Hi. unfold parent.
  pose proof (Nat.div_mod_eq (i - 1) 2). pose proof (Nat.mod_upper_bound (i - 1) 2).
  lia.
Qed.

Lemma shiftr_parent (pos : nat) : Nat.shiftr (pos - 1) 1 = parent pos.
Proof. unfold parent. by rewrite Nat.shiftr_div_pow2. Qed.

Lemma key_le_refl (x : entry) : key_le x x.
Proof. unfold key_le. lia. Qed.

Lemma key_le_trans (x y z : entry) : key_le x y → key_le y z → key_le x z.
Proof. unfold key_le. lia. Qed.

Lemma key_lt_le (x y : entry) : key_lt x y → key_le x y.
Proof. unfold key_lt, key_le. lia. Qed.

Lemma key_not_lt_le (x y : entry) : ¬ key_lt x y → key_le y x.
Proof. unfold key_lt, key_le. lia. Qed.

(** The tuple comparison never reaches the payloads when the counters
    differ. *)
Lemma tuple_lt_counters (x y : entry) :
  x.1.2 ≠ y.1.2 →
  tuple_lt payload_eq payload_lt x y = Ret (bool_decide (key_lt x y)).
Proof.
  destruct x as [[p1 c1] m1], y as [[p2 c2] m2]. simpl. intros Hc.
  unfold tuple_lt, key_lt. simpl.
  destruct (bool_decide (p1 = p2)) eqn:Hp.
  - apply bool_decide_eq_true in Hp. subst p2.
    rewrite (bool_decide_eq_false_2 (c1 = c2)) by done.
    f_equal. apply bool_decide_ext. lia.
  - apply bool_decide_eq_false in Hp. f_equal. apply bool_decide_ext. lia.
Qed.

Lemma counters_lookup_ne (heap : list entry) (i j : nat) (x y : entry) :
  NoDup (counters heap) → heap !! i = Some x → heap !! j = Some y → i ≠ j →
  x.1.2 ≠ y.1.2.
Proof.
  intros Hnd Hi Hj Hne Heq. apply Hne.
  eapply NoDup_lookup; [exact Hnd| |].
  - unfold counters. rewrite list_lookup_fmap, Hi. reflexivity.
  - unfold counters. rewrite list_lookup_fmap, Hj. simpl. by rewrite Heq.
Qed.

Lemma counters_perm (h1 h2 : list entry) :
  h1 ≡ₚ h2 → NoDup (counters h2) → NoDup (counters h1).
Proof. intros Hp. unfold counters. by rewrite Hp. Qed.

(** Moving the hole from [i] to [j]: the list with the moved item written
    back is a permutation of the original one. *)
Lemma hole_move (heap : list entry) (i j : nat) (newitem y : entry) :
  i < length heap → i ≠ j → heap !! j = Some y →
  <[j := newitem]> (<[i := y]> heap) ≡ₚ <[i := newitem]> heap.
Proof.
  intros Hi Hne Hj.
  rewrite <- (list_insert_insert_eq heap i y newitem).
  apply Permutation_insert_swap.
  - by apply list_lookup_insert_eq.
  - by rewrite list_lookup_insert_ne.
Qed.


Lemma getitem_lookup {X} (i : nat) (heap : list X) (x : X) :
  heap !! i = Some x → getitem i heap = (Ret x, heap).
Proof. intros H. unfold getitem, list_getitem. by rewrite H. Qed.

Lemma setitem_insert {X} (i : nat) (x : X) (heap : list X) :
  i < length heap → setitem i x heap = (Ret tt, <[i := x]> heap).
Proof. intros H. unfold setitem, list_setitem. by rewrite decide_True. Qed.

(** [_siftdown]: the item at [pos] is moved up to its place. *)
Lemma siftdown_loop_spec (fuel : nat) :
  ∀ (pos : nat) (heap : list entry) (newitem : entry),
    pos < fuel → pos < length heap →
    NoDup (counters (<[pos := newitem]> heap)) →
    ordered_except_up (<[pos := newitem]> heap) pos →
    ∃ heap',
      _siftdown_loop payload_eq payload_lt fuel newitem 0 pos heap = (Ret tt, heap')
      ∧ heap_ordered heap'
      ∧ heap' ≡ₚ <[pos := newitem]> heap.
Proof.
  induction fuel as [|fuel IH]; intros pos heap newitem Hfuel Hpos Hnd [J1 J2]; [lia|].
  set (V := <[pos := newitem]> heap) in *.
  assert (HVpos : V !! pos = Some newitem) by (by apply list_lookup_insert_eq).
  cbn [_siftdown_loop].
  destruct (decide (0 < pos)) as [Hpos0|Hpos0].
  - rewrite shiftr_parent. pose proof (parent_lt pos Hpos0) as Hpp.
    destruct (lookup_lt_is_Some_2 heap (parent pos)) as [par Hpar]; [lia|].
    assert (HVpar : V !! parent pos = Some par).
    { unfold V. rewrite list_lookup_insert_ne by lia. done. }
    unfold bind at 1. rewrite (getitem_lookup _ _ _ Hpar).
    unfold bind at 1, lift at 1.
    rewrite tuple_lt_counters
      by (eapply (counters_lookup_ne V pos (parent pos)); eauto; lia).
    destruct (bool_decide (key_lt newitem par)) eqn:Hlt.
    + apply bool_decide_eq_true in Hlt.
      unfold bind at 1. rewrite setitem_insert by done.
      set (heap1 := <[pos := par]> heap).
      assert (Hperm : <[parent pos := newitem]> heap1 ≡ₚ V).
      { apply hole_move; [done|lia|done]. }
      destruct (IH (parent pos) heap1 newitem) as (heap' & Hrun & Hord & Hp).
      * lia.
      * unfold heap1. rewrite length_insert. lia.
      * by apply (counters_perm _ V).
      * assert (Hl1 : ∀ i, i ≠ pos → i ≠ parent pos →
                   <[parent pos := newitem]> heap1 !! i = V !! i).
        { intros i H1 H2. unfold heap1, V.
          by rewrite !list_lookup_insert_ne by done. }
        assert (Hl2 : <[parent pos := newitem]> heap1 !! pos = Some par).
        { rewrite list_lookup_insert_ne by lia. unfold heap1.
          by apply list_lookup_insert_eq. }
        assert (Hl3 : <[parent pos := newitem]> heap1 !! parent pos = Some newitem).
        { apply list_lookup_insert_eq. unfold heap1. rewrite length_insert. lia. }
        split.
        -- intros i x p Hi Hne Hx Hp.
           destruct (decide (i = pos)) as [->|Hipos].
           ++ rewrite Hl2 in Hx. rewrite Hl3 in Hp. simplify_eq. by apply key_lt_le.
           ++ rewrite Hl1 in Hx by done.
              destruct (decide (parent i = parent pos)) as [Hsib|Hnsib].
              ** rewrite Hsib, Hl3 in Hp. simplify_eq.
                 apply key_le_trans with par; [by apply key_lt_le|].
                 apply (J1 i x par); auto. by rewrite Hsib.
              ** destruct (decide (parent i = pos)) as [Hch|Hnch].
                 --- rewrite Hch, Hl2 in Hp. simplify_eq.
                     apply (J2 i x p); auto.
                 --- rewrite Hl1 in Hp by done. apply (J1 i x p); auto.
        -- intros c x g Hpp0 Hc Hcp Hx Hg.
           pose proof (parent_lt (parent pos) Hpp0) as Hgp.
           rewrite Hl1 in Hg by lia.
           assert (Hpg : key_le g par) by (apply (J1 (parent pos) par g); auto; lia).
           destruct (decide (c = pos)) as [->|Hcpos].
           ++ rewrite Hl2 in Hx. by simplify_eq.
           ++ pose proof (parent_lt c Hc). rewrite Hl1 in Hx by lia.
              apply key_le_trans with par; [done|].
              apply (J1 c x par); auto. by rewrite Hcp.
      * exists heap'. split_and!; [done|done|]. by rewrite Hp.
    + apply bool_decide_eq_false in Hlt. apply key_not_lt_le in Hlt.
      rewrite setitem_insert by done. exists V. split_and!; [done| |done].
      intros i x p Hi Hx Hp. destruct (decide (i = pos)) as [->|Hne].
      * rewrite HVpos in Hx. rewrite HVpar in Hp. by simplify_eq.
      * by apply (J1 i x p).
  - assert (pos = 0) by lia. subst pos.
    rewrite setitem_insert by done. exists V. split_and!; [done| |done].
    intros i x p Hi Hx Hp. apply (J1 i x p); auto. lia.
Qed.


(** The descent of [_siftup]: the hole at [pos] is moved down to a leaf,
    pulling the smaller child up at each step. *)
Lemma siftup_loop_spec (fuel : nat) :
  ∀ (pos : nat) (heap : list entry) (newitem : entry),
    length heap - pos < fuel → pos < length heap →
    NoDup (counters (<[pos := newitem]> heap)) →
    ordered_except_around (<[pos := newitem]> heap) pos →
    ∃ pos' heap',
      _siftup_loop payload_eq payload_lt fuel (length heap) pos heap = (Ret pos', heap')
      ∧ pos' < length heap'
      ∧ length heap' ≤ 2 * pos' + 1
      ∧ <[pos' := newitem]> heap' ≡ₚ <[pos := newitem]> heap
      ∧ ordered_except_up (<[pos' := newitem]> heap') pos'.
Proof.
  induction fuel as [|fuel IH]; intros pos heap newitem Hfuel Hpos Hnd [K1 K2]; [lia|].
  set (V := <[pos := newitem]> heap) in *.
  cbn [_siftup_loop].
  destruct (decide (2 * pos + 1 < length heap)) as [Hchild|Hleaf].
  - (* the position of the smaller child *)
    assert (Hchoice : ∃ c child,
      (if decide (2 * pos + 1 + 1 < length heap) then
         do l <- getitem (2 * pos + 1);
         do r <- getitem (2 * pos + 1 + 1);
         do smaller <- lift (tuple_lt payload_eq payload_lt l r);
         ret (if negb smaller then 2 * pos + 1 + 1 else 2 * pos + 1)
       else ret (2 * pos + 1)) heap = (Ret c, heap)
      ∧ parent c = pos ∧ 0 < c ∧ c < length heap ∧ heap !! c = Some child
      ∧ (∀ s y, 0 < s → s ≠ c → parent s = pos → heap !! s = Some y → key_le child y)).
    { destruct (lookup_lt_is_Some_2 heap (2 * pos + 1)) as [l Hl]; [lia|].
      destruct (decide (2 * pos + 1 + 1 < length heap)) as [Hright|Hnoright].
      - destruct (lookup_lt_is_Some_2 heap (2 * pos + 1 + 1)) as [r Hr]; [lia|].
        unfold bind at 1. rewrite (getitem_lookup _ _ _ Hl).
        unfold bind at 1. rewrite (getitem_lookup _ _ _ Hr).
        unfold bind at 1, lift at 1.
        rewrite tuple_lt_counters.
        2:{ apply (counters_lookup_ne V (2 * pos + 1) (2 * pos + 1 + 1)); auto.
            - unfold V. rewrite list_lookup_insert_ne by lia. done.
            - unfold V. rewrite list_lookup_insert_ne by lia. done.
            - lia. }
        unfold ret.
        destruct (bool_decide (key_lt l r)) eqn:Hlt; simpl.
        + apply bool_decide_eq_true in Hlt.
          exists (2 * pos + 1), l. split_and!; auto; try lia.
          * apply parent_children; lia.
          * intros s y Hs Hsc Hsp Hy. apply parent_children in Hsp; [|done].
            assert (s = 2 * pos + 1 + 1) by lia. subst s.
            rewrite Hr in Hy. simplify_eq. by apply key_lt_le.
        + apply bool_decide_eq_false in Hlt.
          exists (2 * pos + 1 + 1), r. split_and!; auto; try lia.
          * apply parent_children; lia.
          * intros s y Hs Hsc Hsp Hy. apply parent_children in Hsp; [|done].
            assert (s = 2 * pos + 1) by lia. subst s.
            rewrite Hl in Hy. simplify_eq. by apply key_not_lt_le.
      - exists (2 * pos + 1), l. split_and!; auto; try lia.
        + apply parent_children; lia.
        + intros s y Hs Hsc Hsp Hy. apply parent_children in Hsp; [|done].
          apply lookup_lt_Some in Hy. lia. }
    destruct Hchoice as (c & child & Hrun & Hcp & Hc0 & Hclen & Hchild' & Hsmall).
    unfold bind at 1. rewrite Hrun.
    unfold bind at 1. rewrite (getitem_lookup _ _ _ Hchild').
    unfold bind at 1. rewrite setitem_insert by done.
    assert (Hcpos : pos < c) by (rewrite <- Hcp; by apply parent_lt).
    set (heap1 := <[pos := child]> heap).
    assert (Hlen1 : length heap1 = length heap) by (unfold heap1; by rewrite length_insert).
    assert (Hperm : <[c := newitem]> heap1 ≡ₚ V).
    { apply hole_move; [done|lia|done]. }
    assert (Hl1 : ∀ i, i ≠ pos → i ≠ c → <[c := newitem]> heap1 !! i = V !! i).
    { intros i H1 H2. unfold heap1, V. by rewrite !list_lookup_insert_ne by done. }
    assert (Hl2 : <[c := newitem]> heap1 !! pos = Some child).
    { rewrite list_lookup_insert_ne by lia. unfold heap1. by apply list_lookup_insert_eq. }
    assert (HV : ∀ i, i ≠ pos → V !! i = heap !! i).
    { intros i Hi. unfold V. by rewrite list_lookup_insert_ne. }
    destruct (IH c heap1 newitem) as (pos' & heap' & Hrun' & Hp' & Hleaf' & Hperm' & Hord').
    + lia.
    + lia.
    + by apply (counters_perm _ V).
    + split.
      * intros i x p Hi Hic Hpic Hx Hp.
        destruct (decide (i = pos)) as [Heq|Hipos].
        -- subst i. rewrite Hl2 in Hx. assert (x = child) by congruence. subst x.
           pose proof (parent_lt pos Hi).
           rewrite Hl1 in Hp by lia.
           apply (K2 c child p); auto. rewrite HV by lia. done.
        -- rewrite Hl1 in Hx by done.
           destruct (decide (parent i = pos)) as [Hch|Hnch].
           ++ rewrite Hch, Hl2 in Hp. assert (p = child) by congruence. subst p.
              apply (Hsmall i x); auto. by rewrite <- HV.
           ++ rewrite Hl1 in Hp by done. apply (K1 i x p); auto.
      * intros d x g _ Hd Hdp Hx Hg.
        rewrite Hcp, Hl2 in Hg. assert (g = child) by congruence. subst g.
        pose proof (parent_lt d Hd).
        rewrite Hl1 in Hx by lia.
        apply (K1 d x child); auto; try lia.
        rewrite Hdp, HV by lia. done.
    + rewrite Hlen1 in Hrun'. exists pos', heap'.
      split_and!; [done|done|done|by rewrite Hperm'|done].
  - exists pos, heap. unfold ret. split_and!; [done|done|lia|done|].
    split.
    + intros i x p Hi Hne Hx Hp. apply (K1 i x p); auto.
      intros Hpi. apply parent_children in Hpi; [|done].
      apply lookup_lt_Some in Hx. unfold V in Hx. rewrite length_insert in Hx. lia.
    + intros c x g _ Hc Hcp Hx _. apply parent_children in Hcp; [|done].
      apply lookup_lt_Some in Hx. unfold V in Hx. rewrite length_insert in Hx. lia.
Qed.


Lemma siftdown_spec (pos : nat) (heap : list entry) :
  pos < length heap →
  NoDup (counters heap) →
  ordered_except_up heap pos →
  ∃ heap',
    _siftdown payload_eq payload_lt 0 pos heap = (Ret tt, heap')
    ∧ heap_ordered heap' ∧ heap' ≡ₚ heap.
Proof.
  intros Hpos Hnd Hord.
  destruct (lookup_lt_is_Some_2 heap pos Hpos) as [newitem Hnew].
  assert (Hid : <[pos := newitem]> heap = heap) by (by apply list_insert_id).
  destruct (siftdown_loop_spec (S pos) pos heap newitem) as (heap' & Hrun & Ho & Hp);
    rewrite ?Hid; auto.
  exists heap'. unfold _siftdown, bind. rewrite (getitem_lookup _ _ _ Hnew).
  rewrite Hid in Hp. done.
Qed.

Lemma siftup_spec (heap : list entry) :
  0 < length heap →
  NoDup (counters heap) →
  ordered_except_around heap 0 →
  ∃ heap',
    _siftup payload_eq payload_lt 0 heap = (Ret tt, heap')
    ∧ heap_ordered heap' ∧ heap' ≡ₚ heap.
Proof.
  intros Hlen Hnd Hord.
  destruct (lookup_lt_is_Some_2 heap 0 Hlen) as [newitem Hnew].
  assert (Hid : <[0 := newitem]> heap = heap) by (by apply list_insert_id).
  destruct (siftup_loop_spec (S (length heap)) 0 heap newitem)
    as (pos' & heap1 & Hrun & Hpos' & Hleaf & Hperm & Hord1);
    rewrite ?Hid; auto; [lia|].
  rewrite Hid in Hperm.
  set (V := <[pos' := newitem]> heap1) in *.
  assert (HlenV : length V = length heap1) by (unfold V; by rewrite length_insert).
  destruct (siftdown_spec pos' V) as (heap' & Hrun' & Ho & Hp); auto.
  - lia.
  - by apply (counters_perm _ heap).
  - exists heap'. unfold _siftup. unfold bind at 1, get at 1.
    unfold bind at 1. rewrite (getitem_lookup _ _ _ Hnew).
    unfold bind at 1. rewrite Hrun.
    unfold bind at 1. rewrite setitem_insert by done.
    fold V. rewrite Hrun'. split_and!; [done|done|]. by rewrite Hp.
Qed.

(** [heappush] keeps the heap ordered and adds exactly the new item. *)
Lemma heappush_spec (heap : list entry) (item : entry) :
  heap_ordered heap →
  NoDup (counters (heap ++ [item])) →
  ∃ heap',
    heappush payload_eq payload_lt item heap = (Ret tt, heap')
    ∧ heap_ordered heap' ∧ heap' ≡ₚ heap ++ [item].
Proof.
  intros Hord Hnd.
  destruct (siftdown_spec (length heap) (heap ++ [item])) as (heap' & Hrun & Ho & Hp);
    auto.
  - rewrite length_app. simpl. lia.
  - split.
    + intros i x p Hi Hne Hx Hp.
      assert (Hlt : i < length heap).
      { apply lookup_lt_Some in Hx. rewrite length_app in Hx. simpl in Hx. lia. }
      pose proof (parent_lt i Hi).
      rewrite lookup_app_l in Hx, Hp by lia. by apply (Hord i x p).
    + intros c x g _ Hc Hcp Hx _. apply parent_children in Hcp; [|done].
      apply lookup_lt_Some in Hx. rewrite length_app in Hx. simpl in Hx. lia.
  - exists heap'. unfold heappush, append. py_unfold.
    rewrite length_app. simpl.
    replace (length heap + 1 - 1) with (length heap) by lia. by rewrite Hrun.
Qed.

(** The root of an ordered heap carries the smallest key. *)
Lemma heap_root_minimal (heap : list entry) (root : entry) :
  heap_ordered heap → heap !! 0 = Some root →
  ∀ x, x ∈ heap → key_le root x.
Proof.
  intros Hord Hroot x [i Hi]%list_elem_of_lookup. revert x Hi.
  induction (lt_wf i) as [i _ IH]. intros x Hi.
  destruct (decide (i = 0)) as [->|Hne].
  - rewrite Hroot in Hi. injection Hi as ->. apply key_le_refl.
  - assert (H0 : 0 < i) by lia. pose proof (parent_lt i H0) as Hp.
    destruct (lookup_lt_is_Some_2 heap (parent i)) as [p Hpar].
    { apply lookup_lt_Some in Hi. lia. }
    apply key_le_trans with p; [by apply (IH (parent i))|by apply (Hord i x p)].
Qed.

(** [heappop] on a non-empty heap returns its root, which carries the
    smallest key, and keeps the rest ordered. *)
Lemma heappop_spec (heap : list entry) :
  heap ≠ [] →
  heap_ordered heap →
  NoDup (counters heap) →
  ∃ returnitem heap',
    heappop payload_eq payload_lt heap = (Ret returnitem, heap')
    ∧ heap !! 0 = Some returnitem
    ∧ (∀ x, x ∈ heap → key_le returnitem x)
    ∧ heap_ordered heap'
    ∧ heap ≡ₚ returnitem :: heap'.
Proof.
  intros Hne Hord Hnd.
  destruct (exists_last Hne) as (body & lastelt & ->).
  assert (Hpop : pop (body ++ [lastelt]) = (Ret lastelt, body)).
  { unfold pop. rewrite last_snoc, length_app. simpl.
    replace (length body + 1 - 1) with (length body) by lia.
    by rewrite take_app_length. }
  unfold heappop. unfold bind at 1. rewrite Hpop. unfold bind at 1, get at 1.
  destruct body as [|root rest].
  - simpl. exists lastelt, []. unfold ret. split_and!; auto.
    + intros x ->%list_elem_of_singleton. apply key_le_refl.
    + intros i x p Hi Hx. done.
  - rewrite bool_decide_eq_true_2 by done.
    unfold bind at 1. rewrite (getitem_lookup 0 _ root) by done.
    unfold bind at 1. rewrite setitem_insert by (simpl; lia).
    change (<[0 := lastelt]> (root :: rest)) with (lastelt :: rest).
    assert (Hperm : (root :: rest) ++ [lastelt] ≡ₚ root :: lastelt :: rest).
    { simpl. constructor. by rewrite Permutation_app_comm. }
    destruct (siftup_spec (lastelt :: rest)) as (heap' & Hrun & Ho & Hp).
    + simpl. lia.
    + pose proof (counters_perm _ _ (Permutation_sym Hperm) Hnd) as Hnd'.
      unfold counters in Hnd'. rewrite fmap_cons in Hnd'.
      by apply NoDup_cons in Hnd' as [_ ?].
    + split.
      * intros i x p Hi Hi0 Hpi Hx Hp.
        assert (Hlt : i < length (root :: rest)).
        { apply lookup_lt_Some in Hx. simpl in *. lia. }
        pose proof (parent_lt i Hi).
        apply (Hord i x p); [done| |].
        -- rewrite lookup_app_l by done. destruct i; [lia|]. done.
        -- rewrite lookup_app_l by lia. destruct (parent i); [lia|]. done.
      * intros; lia.
    + exists root, heap'. unfold bind at 1. rewrite Hrun. unfold ret.
      split_and!; auto.
      * apply heap_root_minimal; done.
      * rewrite Hperm. constructor. by rewrite Hp.
Qed.

End heapq_properties.

(** ** Priority queue *)

Section PriorityQueue_properties.

Import PriorityQueue.

Context {A : Type}.
Variable payload_eq : A -> A -> bool.
Variable payload_lt : A -> A -> outcome bool.

Local Abbreviation entry := (Z * nat * A)%type (only parsing).
Local Abbreviation enqueue := (PriorityQueue.enqueue payload_eq payload_lt).
Local Abbreviation dequeue := (PriorityQueue.dequeue payload_eq payload_lt).
Local Abbreviation step := (PriorityQueue.step payload_eq payload_lt).
Local Abbreviation run := (PriorityQueue.run payload_eq payload_lt).

Lemma pq_inv_init : invariant (@init A).
Proof.
  split_and!; simpl.
  - intros i x p _ Hx. done.
  - constructor.
  - intros x Hx. by apply elem_of_nil in Hx.
Qed.

Lemma enqueue_spec (s : PriorityQueue A) (priority : Z) (message : A) :
  invariant s →
  ∃ s', enqueue priority message s = (Ret tt, s')
    ∧ queue s' ≡ₚ (priority, counter s, message) :: queue s
    ∧ counter s' = counter s + 1
    ∧ invariant s'.
Proof.
  intros (Hord & Hnd & Hlt).
  assert (Hnd' : NoDup (heapq.counters (queue s ++ [(priority, counter s, message)]))).
  { unfold heapq.counters. rewrite fmap_app. apply NoDup_app. split_and!.
    - done.
    - intros c ([[p c'] m] & -> & Hin)%list_elem_of_fmap Hc%list_elem_of_singleton.
      specialize (Hlt _ Hin). simpl in *. lia.
    - apply NoDup_singleton. }
  destruct (heappush_spec payload_eq payload_lt (queue s)
              (priority, counter s, message) Hord Hnd') as (heap' & Hrun & Ho & Hp).
  eexists. unfold PriorityQueue.enqueue, on_queue. py_unfold.
  rewrite Hrun. split_and!; [reflexivity|..]; simpl.
  - by rewrite Hp, Permutation_app_comm.
  - done.
  - split_and!; simpl; [done|by apply (counters_perm _ _ Hp)|].
    intros x Hx. rewrite Hp in Hx.
    apply elem_of_app in Hx as [Hx|Hx%list_elem_of_singleton].
    + specialize (Hlt _ Hx). lia.
    + subst x. simpl. lia.
Qed.

Lemma dequeue_empty (s : PriorityQueue A) :
  queue s = [] → dequeue s = (Raise IndexError, s).
Proof.
  intros Hq. unfold PriorityQueue.dequeue, is_empty. py_unfold. by rewrite Hq.
Qed.

Lemma dequeue_spec (s : PriorityQueue A) :
  invariant s → queue s ≠ [] →
  ∃ item s',
    dequeue s = (Ret (item.1.2, item.2), s')
    ∧ queue s !! 0 = Some item
    ∧ queue s ≡ₚ item :: queue s'
    ∧ (∀ x, x ∈ queue s → heapq.key_le item x)
    ∧ (∀ x, x ∈ queue s' → heapq.key_lt item x)
    ∧ counter s' = counter s
    ∧ invariant s'.
Proof.
  intros (Hord & Hnd & Hlt) Hne.
  destruct (heappop_spec payload_eq payload_lt (queue s) Hne Hord Hnd)
    as (item & heap' & Hrun & Hroot & Hmin & Ho & Hp).
  assert (Hnd' : NoDup (heapq.counters (item :: heap'))).
  { apply (counters_perm _ (queue s)); [by symmetry|done]. }
  unfold heapq.counters in Hnd'. rewrite fmap_cons in Hnd'.
  apply NoDup_cons in Hnd' as [Hfresh Hnd'].
  exists item, {| queue := heap'; counter := counter s |}.
  split_and!; simpl; auto.
  - unfold PriorityQueue.dequeue, is_empty, on_queue. py_unfold.
    rewrite bool_decide_eq_false_2 by (by destruct (queue s)).
    by rewrite Hrun.
  - intros x Hx.
    assert (Hle : heapq.key_le item x) by (apply Hmin; rewrite Hp; by right).
    assert (Hc : item.1.2 ≠ x.1.2).
    { intros Heq. apply Hfresh. rewrite Heq.
      apply list_elem_of_fmap. by exists x. }
    unfold heapq.key_le, heapq.key_lt in *. lia.
  - split_and!; simpl; [done|done|].
    intros x Hx. apply Hlt. rewrite Hp. by right.
Qed.

Lemma peek_state (s : PriorityQueue A) : exec peek s = s.
Proof.
  unfold peek, is_empty, on_queue, heapq.getitem. py_unfold.
  destruct (bool_decide _); [done|].
  destruct (list_getitem 0 (queue s)); by destruct s.
Qed.

Lemma pq_inv_step (s : PriorityQueue A) (c : call A) :
  invariant s → invariant (exec (step c) s).
Proof.
  intros Hinv. destruct c as [priority message| | |]; simpl.
  - destruct (enqueue_spec s priority message Hinv) as (s' & Hrun & _ & _ & Hinv').
    unfold exec. by rewrite Hrun.
  - rewrite exec_bind_ret. destruct (decide (queue s = [])) as [Hq|Hq].
    + unfold exec. by rewrite dequeue_empty.
    + destruct (dequeue_spec s Hinv Hq) as (item & s' & Hrun & _ & _ & _ & _ & _ & Hinv').
      unfold exec. by rewrite Hrun.
  - rewrite exec_bind_ret. by rewrite peek_state.
  - apply pq_inv_init.
Qed.

Lemma pq_inv_run (calls : list (call A)) :
  ∀ s, invariant s → invariant (run calls s).
Proof.
  induction calls as [|c calls IH]; intros s Hinv; [done|].
  simpl. apply IH. by apply pq_inv_step.
Qed.

Lemma pq_counter_run (calls : list (call A)) :
  ∀ s, invariant s → no_clear calls = true →
       counter (run calls s) = counter s + enqueues calls.
Proof.
  induction calls as [|c calls IH]; intros s Hinv Hnc; simpl; [lia|].
  pose proof (pq_inv_step s c Hinv) as Hinv'.
  destruct c as [priority message| | |]; simpl in *.
  - rewrite IH by done.
    destruct (enqueue_spec s priority message Hinv) as (s' & Hrun & _ & Hc & _).
    unfold exec. rewrite Hrun. simpl. lia.
  - rewrite IH by done. f_equal. rewrite exec_bind_ret.
    destruct (decide (queue s = [])) as [Hq|Hq].
    + unfold exec. by rewrite dequeue_empty.
    + destruct (dequeue_spec s Hinv Hq) as (item & s' & Hrun & _ & _ & _ & _ & Hc & _).
      unfold exec. by rewrite Hrun.
  - rewrite IH by done. by rewrite exec_bind_ret, peek_state.
  - done.
Qed.

End PriorityQueue_properties.

(** C7.  In every state that [enqueue], [dequeue], [peek] and [clear]
    calls can reach from the empty queue: the stored counters are pairwise
    distinct and below the next counter; without a [clear], the next
    counter is the number of [enqueue] calls made; [enqueue] stores the
    entry under the next counter and increments it; and [dequeue] on a
    non-empty queue removes and returns the entry whose key [(priority,
    counter)] is strictly below the key of every entry that stays, leaving
    the counter alone.  Moreover, enqueueing (5, a), (1, b), (5, c) into
    the empty queue yields the dequeue order b, a, c. *)
Theorem pq_dequeue_priority_fifo :
  (∀ (A : Type) (payload_eq : A → A → bool) (payload_lt : A → A → outcome bool)
     (calls : list (PriorityQueue.call A)),
     let s := PriorityQueue.run payload_eq payload_lt calls PriorityQueue.init in
     NoDup (heapq.counters (PriorityQueue.queue s))
     ∧ (∀ x, x ∈ PriorityQueue.queue s → x.1.2 < PriorityQueue.counter s)
     ∧ (PriorityQueue.no_clear calls = true →
        PriorityQueue.counter s = PriorityQueue.enqueues calls)
     ∧ (∀ priority message,
          ∃ s', PriorityQueue.enqueue payload_eq payload_lt priority message s
                = (Ret tt, s')
            ∧ PriorityQueue.queue s'
              ≡ₚ (priority, PriorityQueue.counter s, message) :: PriorityQueue.queue s
            ∧ PriorityQueue.counter s' = PriorityQueue.counter s + 1)
     ∧ (PriorityQueue.queue s ≠ [] →
        ∃ item s',
          PriorityQueue.dequeue payload_eq payload_lt s = (Ret (item.1.2, item.2), s')
          ∧ PriorityQueue.queue s ≡ₚ item :: PriorityQueue.queue s'
          ∧ (∀ x, x ∈ PriorityQueue.queue s' → heapq.key_lt item x)
          ∧ PriorityQueue.counter s' = PriorityQueue.counter s))
  ∧ (∀ (payload_eq : string → string → bool)
       (payload_lt : string → string → outcome bool),
       PriorityQueue.drain payload_eq payload_lt 3
         (PriorityQueue.run payload_eq payload_lt
            [PriorityQueue.Enqueue 5 "a"; PriorityQueue.Enqueue 1 "b";
             PriorityQueue.Enqueue 5 "c"] PriorityQueue.init)
       = ["b"; "a"; "c"]).
Proof.
  split.
  - intros A payload_eq payload_lt calls s.
    pose proof (pq_inv_run payload_eq payload_lt calls _ pq_inv_init) as Hinv.
    fold s in Hinv. pose proof Hinv as (Hord & Hnd & Hlt).
    split_and!; [done|done| | |].
    + intros Hnc. unfold s.
      by rewrite (pq_counter_run payload_eq payload_lt calls _ pq_inv_init Hnc).
    + intros priority message.
      destruct (enqueue_spec payload_eq payload_lt s priority message Hinv)
        as (s' & Hrun & Hq & Hc & _).
      by exists s'.
    + intros Hne.
      destruct (dequeue_spec payload_eq payload_lt s Hinv Hne)
        as (item & s' & Hrun & _ & Hq & _ & Hmin & Hc & _).
      by exists item, s'.
  - intros payload_eq payload_lt. reflexivity.
Qed.

Lemma pq_dequeue_priority_fifo_witness :
  let s := PriorityQueue.run PriorityQueue.str_eq PriorityQueue.str_lt
             [PriorityQueue.Enqueue 5 "a"; PriorityQueue.Enqueue 1 "b"]
             PriorityQueue.init in
  PriorityQueue.queue s ≠ []
  ∧ ∃ item s',
      PriorityQueue.dequeue PriorityQueue.str_eq PriorityQueue.str_lt s
      = (Ret (item.1.2, item.2), s')
      ∧ PriorityQueue.queue s ≡ₚ item :: PriorityQueue.queue s'
      ∧ (∀ x, x ∈ PriorityQueue.queue s' → heapq.key_lt item x)
      ∧ PriorityQueue.counter s' = PriorityQueue.counter s.
Proof.
  assert (Hne : PriorityQueue.queue
                  (PriorityQueue.run PriorityQueue.str_eq PriorityQueue.str_lt
                     [PriorityQueue.Enqueue 5 "a"; PriorityQueue.Enqueue 1 "b"]
                     PriorityQueue.init) ≠ []) by (vm_compute; discriminate).
  simpl. split; [exact Hne|].
  apply (proj1 pq_dequeue_priority_fifo string PriorityQueue.str_eq
           PriorityQueue.str_lt
           [PriorityQueue.Enqueue 5 "a"; PriorityQueue.Enqueue 1 "b"]).
  exact Hne.
Defined.

(** C9.  In every reachable state: [dequeue] on an empty queue raises
    [IndexError] and leaves the queue as it is; on a non-empty queue it
    returns; so whenever it raises, the exception is [IndexError] and
    [is_empty] is true. *)
Theorem pq_dequeue_raises_iff_empty
    (A : Type) (payload_eq : A → A → bool) (payload_lt : A → A → outcome bool)
    (calls : list (PriorityQueue.call A)) :
  let s := PriorityQueue.run payload_eq payload_lt calls PriorityQueue.init in
  (PriorityQueue.is_empty s = true →
   PriorityQueue.dequeue payload_eq payload_lt s = (Raise IndexError, s))
  ∧ (PriorityQueue.is_empty s = false →
     ∃ r s', PriorityQueue.dequeue payload_eq payload_lt s = (Ret r, s'))
  ∧ (∀ e, result (PriorityQueue.dequeue payload_eq payload_lt) s = Raise e →
          e = IndexError ∧ PriorityQueue.is_empty s = true).
Proof.
  intros s.
  pose proof (pq_inv_run payload_eq payload_lt calls _ pq_inv_init) as Hinv.
  fold s in Hinv.
  assert (Hempty : PriorityQueue.is_empty s = true ↔ PriorityQueue.queue s = []).
  { unfold PriorityQueue.is_empty. rewrite bool_decide_eq_true.
    by destruct (PriorityQueue.queue s). }
  assert (Hyes : PriorityQueue.is_empty s = true →
                 PriorityQueue.dequeue payload_eq payload_lt s = (Raise IndexError, s)).
  { intros He. apply dequeue_empty. by apply Hempty. }
  assert (Hno : PriorityQueue.is_empty s = false →
                ∃ r s', PriorityQueue.dequeue payload_eq payload_lt s = (Ret r, s')).
  { intros He.
    destruct (dequeue_spec payload_eq payload_lt s Hinv) as (item & s' & Hrun & _).
    - intros Hq. apply Hempty in Hq. congruence.
    - by exists (item.1.2, item.2), s'. }
  split_and!; [done|done|].
  intros e He. destruct (PriorityQueue.is_empty s) eqn:Hs.
  - unfold result in He. rewrite Hyes in He by done. simpl in He. by injection He as <-.
  - destruct (Hno eq_refl) as (r & s' & Hrun).
    unfold result in He. rewrite Hrun in He. discriminate.
Qed.

Lemma pq_dequeue_raises_iff_empty_witness :
  PriorityQueue.is_empty (@PriorityQueue.init string) = true
  ∧ PriorityQueue.dequeue PriorityQueue.str_eq PriorityQueue.str_lt PriorityQueue.init
    = (Raise IndexError, PriorityQueue.init)
  ∧ ∃ r s',
      PriorityQueue.dequeue PriorityQueue.str_eq PriorityQueue.str_lt
        (PriorityQueue.run PriorityQueue.str_eq PriorityQueue.str_lt
           [PriorityQueue.Enqueue 1 "x"] PriorityQueue.init)
      = (Ret r, s').
Proof.
  split; [reflexivity|]. split.
  - apply (pq_dequeue_raises_iff_empty string PriorityQueue.str_eq
             PriorityQueue.str_lt []). reflexivity.
  - apply (pq_dequeue_raises_iff_empty string PriorityQueue.str_eq
             PriorityQueue.str_lt [PriorityQueue.Enqueue 1 "x"]). reflexivity.
Defined.

(** * Further properties *)

(** ** Room registry: registration, fan-out, subscriptions *)

Section ConnectionManager_more.

Import ConnectionManager.
Import Endpoints.

Lemma connect_eq (websocket : WebSocket) (room user_id : string) (s : ConnectionManager) :
  connect websocket room user_id s =
    (Ret tt,
     {| active_connections :=
          <[room := get_connections_for_room room s ++ [websocket]]> (active_connections s);
        user_rooms :=
          <[user_id := get_rooms_for_user user_id s ++ [room]]> (user_rooms s) |}).
Proof.
  unfold connect, get_connections_for_room, get_rooms_for_user, dict_get_default.
  unfold active_connections_getitem, user_rooms_getitem, defaultdict_getitem,
    set_active_connections, set_user_rooms.
  py_unfold.
  destruct (active_connections s !! room) as [conns|]; simpl;
    destruct (user_rooms s !! user_id) as [rooms|]; simpl;
    by rewrite ?insert_insert_eq.
Qed.

(** [disconnect] in closed form. *)
Lemma disconnect_eq (websocket : WebSocket) (room user_id : string) (s : ConnectionManager) :
  disconnect websocket room user_id s =
    let active :=
      match active_connections s !! room with
      | None => <[room := []]> (active_connections s)
      | Some conns =>
          match list_remove websocket conns with
          | Ret [] => delete room (active_connections s)
          | Ret conns' => <[room := conns']> (active_connections s)
          | Raise _ => active_connections s
          end
      end in
    match user_rooms s !! user_id with
    | None =>
        (Raise ValueError,
         {| active_connections := active; user_rooms := <[user_id := []]> (user_rooms s) |})
    | Some rooms =>
        match list_remove room rooms with
        | Ret rooms' =>
            (Ret tt, {| active_connections := active;
                        user_rooms := <[user_id := rooms']> (user_rooms s) |})
        | Raise e =>
            (Raise e, {| active_connections := active; user_rooms := user_rooms s |})
        end
    end.
Proof.
  assert (Htail : ∀ active,
    (do rooms <- user_rooms_getitem user_id;
     do rooms' <- lift (list_remove room rooms);
     set_user_rooms user_id rooms')
      {| active_connections := active; user_rooms := user_rooms s |} =
    match user_rooms s !! user_id with
    | None =>
        (Raise ValueError,
         {| active_connections := active; user_rooms := <[user_id := []]> (user_rooms s) |})
    | Some rooms =>
        match list_remove room rooms with
        | Ret rooms' =>
            (Ret tt, {| active_connections := active;
                        user_rooms := <[user_id := rooms']> (user_rooms s) |})
        | Raise e =>
            (Raise e, {| active_connections := active; user_rooms := user_rooms s |})
        end
    end).
  { intros active. unfold user_rooms_getitem, defaultdict_getitem, set_user_rooms.
    py_unfold. simpl.
    destruct (user_rooms s !! user_id) as [rooms|]; simpl; [|done].
    by destruct (list_remove room rooms). }
  cbv zeta. unfold disconnect. unfold bind at 1.
  unfold active_connections_getitem at 1, defaultdict_getitem.
  destruct (active_connections s !! room) as [conns|] eqn:Hroom; simpl.
  - destruct (list_contains websocket conns) eqn:Hin.
    + apply list_contains_spec in Hin.
      destruct (list_remove_present _ _ Hin) as (conns' & Hrm & _).
      unfold bind at 1 2. unfold active_connections_getitem at 1, defaultdict_getitem.
      simpl. rewrite Hroom. unfold bind at 1, lift at 1. rewrite Hrm.
      unfold bind at 1, set_active_connections at 1, modify. simpl.
      unfold bind at 1, active_connections_getitem at 1, defaultdict_getitem. simpl.
      rewrite lookup_insert_eq.
      destruct conns' as [|c conns'].
      * rewrite bool_decide_eq_true_2 by done.
        unfold del_active_connections. simpl. rewrite lookup_insert_eq.
        rewrite delete_insert_eq. apply Htail.
      * rewrite bool_decide_eq_false_2 by done. unfold ret at 1. apply Htail.
    + assert (Hnot : websocket ∉ conns).
      { intros H. apply list_contains_spec in H. congruence. }
      rewrite (list_remove_absent _ _ Hnot).
      unfold bind at 1, ret at 1. destruct s. apply Htail.
  - unfold bind at 1, ret at 1. apply Htail.
Qed.

(** [l.remove(x)] takes out the first occurrence of [x]. *)
Lemma list_remove_split `{EqDecision X} (x : X) (l l' : list X) :
  list_remove x l = Ret l' ↔
  ∃ pre post, l = pre ++ x :: post ∧ (x ∉ pre) ∧ l' = pre ++ post.
Proof.
  revert l'. induction l as [|y l IH]; intros l'; simpl.
  - split; [done|]. intros (pre & post & H & _). by destruct pre.
  - destruct (decide (y = x)) as [->|Hne].
    + split.
      * intros [= <-]. exists [], l. split_and!; [done|apply not_elem_of_nil|done].
      * intros (pre & post & H & Hpre & ->). destruct pre as [|z pre]; simpl in *.
        -- by injection H as ->.
        -- injection H as -> _. destruct Hpre. left.
    + destruct (list_remove x l) as [r|e] eqn:Hr.
      * split.
        -- intros [= <-]. destruct (proj1 (IH r) eq_refl) as (pre & post & -> & Hpre & ->).
           exists (y :: pre), post. split_and!; [done| |done].
           apply not_elem_of_cons. done.
        -- intros (pre & post & H & Hpre & ->). destruct pre as [|z pre]; simpl in *.
           ++ injection H as ? _. done.
           ++ injection H as <- ->. apply not_elem_of_cons in Hpre as [_ Hpre].
              f_equal. f_equal. assert (Ret r = Ret (pre ++ post)) as [= ->]; [|done].
              apply IH. by exists pre, post.
      * split; [done|].
        intros (pre & post & H & Hpre & ->). destruct pre as [|z pre]; simpl in *.
        -- injection H as ? _. done.
        -- injection H as <- ->. apply not_elem_of_cons in Hpre as [_ Hpre].
           assert (Raise e = Ret (pre ++ post)) as [=]. apply IH. by exists pre, post.
Qed.

Lemma list_remove_snoc `{EqDecision X} (x : X) (l : list X) :
  ∃ r, list_remove x (l ++ [x]) = Ret r ∧ r ≡ₚ l ∧ (x ∉ l → r = l).
Proof.
  induction l as [|y l (r & Hr & Hperm & Hsame)]; simpl.
  - rewrite decide_True by done. by exists [].
  - destruct (decide (y = x)) as [->|Hne].
    + exists (l ++ [x]). split_and!; [done| |].
      * by rewrite Permutation_app_comm.
      * intros Hx. destruct Hx. left.
    + rewrite Hr. exists (y :: r). split_and!; [done|by constructor|].
      intros [_ Hx]%not_elem_of_cons. by rewrite Hsame.
Qed.

Lemma view_insert_eq {V} (k : string) (l : list V) (d : gmap string (list V)) :
  dict_get_default k (<[k := l]> d) = l.
Proof. unfold dict_get_default. by rewrite lookup_insert_eq. Qed.

Lemma view_insert_ne {V} (k k' : string) (l : list V) (d : gmap string (list V)) :
  k ≠ k' → dict_get_default k' (<[k := l]> d) = dict_get_default k' d.
Proof. intros. unfold dict_get_default. by rewrite lookup_insert_ne. Qed.

Lemma rooms_view_insert (user_id : string) (l : list string)
    (a : gmap string (list WebSocket)) (m : gmap string (list string)) :
  get_rooms_for_user user_id
    {| active_connections := a; user_rooms := <[user_id := l]> m |} = l.
Proof. unfold get_rooms_for_user. simpl. apply view_insert_eq. Qed.



Lemma send_loop_open (message : string) (connections : list WebSocket) :
  ∀ w : World,
    (∀ c, c ∈ connections → c ∉ closed w) →
    for_each connections (λ connection, send_text connection message) w =
      (Ret tt,
       {| manager := manager w; closed := closed w;
          attempts := attempts w ++ ((λ c, (c, message)) <$> connections) |}).
Proof.
  induction connections as [|x connections IH]; intros w Hopen; simpl.
  - unfold ret. rewrite app_nil_r. by destruct w.
  - unfold bind at 1, send_text at 1, list_contains.
    rewrite bool_decide_eq_false_2 by (apply Hopen; left).
    rewrite IH; simpl.
    + by rewrite <- app_assoc.
    + intros c Hc. apply Hopen. by right.
Qed.

(** X2.  When no handle registered for the room is closed, [broadcast]
    returns, leaves the registry as it is, and sends the message to the
    handles of the room in registration order, once per registration (a
    handle registered twice gets it twice); for a room without entry it
    sends nothing and creates no entry. *)
Theorem cm_broadcast_reaches_all (message room : string) (w : World) :
  (∀ c, c ∈ get_connections_for_room room (manager w) → c ∉ closed w) →
  broadcast message room w =
    (Ret tt,
     {| manager := manager w; closed := closed w;
        attempts := attempts w
          ++ ((λ c, (c, message)) <$> get_connections_for_room room (manager w)) |}).
Proof.
  intros Hopen. unfold broadcast, bind, get. unfold get_connections_for_room in *.
  by rewrite (send_loop_open message _ w Hopen).
Qed.

Lemma cm_broadcast_reaches_all_witness :
  let registry := exec (connect 2 "lobby" "bob")
                    (exec (connect 1 "lobby" "al") (exec (connect 1 "lobby" "al") init)) in
  let w := {| manager := registry; closed := [3]; attempts := [] |} in
  attempts (exec (broadcast "hi" "lobby") w) = [(1, "hi"); (1, "hi"); (2, "hi")]
  ∧ exec (broadcast "hi" "hall") w = w.
Proof.
  simpl. split.
  - unfold exec. rewrite cm_broadcast_reaches_all; [reflexivity|].
    intros c Hc. vm_compute in Hc. intros Hclosed.
    apply list_elem_of_singleton in Hclosed. subst c.
    repeat (apply elem_of_cons in Hc as [Hc|Hc]; [discriminate|]).
    by apply elem_of_nil in Hc.
  - unfold exec. rewrite cm_broadcast_reaches_all; [reflexivity|].
    intros c Hc. vm_compute in Hc. by apply elem_of_nil in Hc.
Defined.

(** X3.  [disconnect] of a handle that is registered for the room, by a
    user whose list has the room, returns; it takes out the first
    occurrence of the handle and of the room; the room's entry is deleted
    when its list becomes empty and kept otherwise; no other room and no
    other user is touched. *)
Theorem cm_disconnect_registered
    (websocket : WebSocket) (room user_id : string) (s : ConnectionManager)
    (conns : list WebSocket) :
  active_connections s !! room = Some conns →
  websocket ∈ conns →
  room ∈ get_rooms_for_user user_id s →
  let s' := exec (disconnect websocket room user_id) s in
  result (disconnect websocket room user_id) s = Ret tt
  ∧ (∃ pre post,
       conns = pre ++ websocket :: post ∧ (websocket ∉ pre)
       ∧ get_connections_for_room room s' = pre ++ post
       ∧ active_connections s' !! room
         = if decide (pre ++ post = []) then None else Some (pre ++ post))
  ∧ (∃ pre post,
       get_rooms_for_user user_id s = pre ++ room :: post ∧ (room ∉ pre)
       ∧ get_rooms_for_user user_id s' = pre ++ post)
  ∧ (∀ room', room' ≠ room →
       active_connections s' !! room' = active_connections s !! room')
  ∧ (∀ user_id', user_id' ≠ user_id →
       user_rooms s' !! user_id' = user_rooms s !! user_id').
Proof.
  intros Hroom Hws Huser.
  destruct (list_remove_present _ _ Hws) as (conns' & Hrm & _).
  destruct (list_remove_present _ _ Huser) as (rooms' & Hrm' & _).
  unfold exec, result. rewrite disconnect_eq. cbv zeta. rewrite Hroom, Hrm.
  unfold get_rooms_for_user, dict_get_default in Huser, Hrm' |- *.
  destruct (user_rooms s !! user_id) as [rooms|] eqn:Hu; simpl in Huser, Hrm';
    [|by apply elem_of_nil in Huser].
  rewrite Hrm'. cbn [fst snd].
  apply list_remove_split in Hrm as (pre & post & -> & Hpre & ->).
  apply list_remove_split in Hrm' as (pre' & post' & -> & Hpre' & ->).
  unfold get_connections_for_room, dict_get_default. simpl.
  split_and!; [done| | | |].
  - exists pre, post. split_and!; [done|done| |].
    + destruct (pre ++ post) eqn:E; simpl.
      * by rewrite lookup_delete_eq.
      * by rewrite lookup_insert_eq.
    + destruct (pre ++ post) eqn:E; simpl.
      * by rewrite lookup_delete_eq.
      * by rewrite lookup_insert_eq.
  - exists pre', post'. split_and!; [done|done|].
    by rewrite lookup_insert_eq.
  - intros room' Hne. destruct (pre ++ post).
    + by rewrite lookup_delete_ne.
    + by rewrite lookup_insert_ne.
  - intros user' Hne. by rewrite lookup_insert_ne.
Qed.

Lemma cm_disconnect_registered_witness :
  let s := exec (connect 1 "lobby" "al") init in
  result (disconnect 1 "lobby" "al") s = Ret tt
  ∧ active_connections (exec (disconnect 1 "lobby" "al") s) !! "hall" = None.
Proof.
  simpl.
  destruct (cm_disconnect_registered 1 "lobby" "al"
              (exec (connect 1 "lobby" "al") init) [1])
    as (Hres & _ & _ & Hother & _).
  - reflexivity.
  - left.
  - vm_compute. left.
  - split; [exact Hres|]. rewrite Hother; [reflexivity|discriminate].
Defined.

(** X4.  [disconnect] right after [connect] with the same arguments never
    raises and gives back the room's handles and the user's rooms, up to
    the order of the duplicates; exactly, when the handle and the room
    were not registered before. *)
Theorem cm_connect_disconnect_roundtrip
    (websocket : WebSocket) (room user_id : string) (s : ConnectionManager) :
  let s1 := exec (connect websocket room user_id) s in
  let s2 := exec (disconnect websocket room user_id) s1 in
  result (disconnect websocket room user_id) s1 = Ret tt
  ∧ get_connections_for_room room s2 ≡ₚ get_connections_for_room room s
  ∧ get_rooms_for_user user_id s2 ≡ₚ get_rooms_for_user user_id s
  ∧ (websocket ∉ get_connections_for_room room s →
     get_connections_for_room room s2 = get_connections_for_room room s)
  ∧ (room ∉ get_rooms_for_user user_id s →
     get_rooms_for_user user_id s2 = get_rooms_for_user user_id s).
Proof.
  intros s1 s2.
  set (conns := get_connections_for_room room s).
  set (rooms := get_rooms_for_user user_id s).
  destruct (list_remove_snoc websocket conns) as (r1 & Hr1 & Hp1 & He1).
  destruct (list_remove_snoc room rooms) as (r2 & Hr2 & Hp2 & He2).
  assert (Hd : disconnect websocket room user_id s1 =
    (Ret tt,
     {| active_connections :=
          match r1 with
          | [] => delete room (<[room := conns ++ [websocket]]> (active_connections s))
          | _ :: _ => <[room := r1]> (<[room := conns ++ [websocket]]> (active_connections s))
          end;
        user_rooms := <[user_id := r2]> (<[user_id := rooms ++ [room]]> (user_rooms s)) |})).
  { unfold s1, exec. rewrite connect_eq. cbn [snd]. rewrite disconnect_eq. cbv zeta. simpl.
    fold conns rooms. rewrite !lookup_insert_eq, Hr1, Hr2. done. }
  assert (Hv1 : get_connections_for_room room s2 = r1).
  { unfold s2, exec. rewrite Hd. unfold get_connections_for_room, dict_get_default. simpl.
    destruct r1; [by rewrite lookup_delete_eq|by rewrite lookup_insert_eq]. }
  assert (Hv2 : get_rooms_for_user user_id s2 = r2).
  { unfold s2, exec. rewrite Hd. unfold get_rooms_for_user. simpl.
    by rewrite view_insert_eq. }
  rewrite Hv1, Hv2. unfold result. rewrite Hd. split_and!; auto.
Qed.

Lemma cm_connect_disconnect_roundtrip_witness :
  get_connections_for_room "lobby"
    (exec (disconnect 1 "lobby" "al") (exec (connect 1 "lobby" "al") init))
  = get_connections_for_room "lobby" init.
Proof.
  apply (cm_connect_disconnect_roundtrip 1 "lobby" "al" init).
  vm_compute. apply not_elem_of_nil.
Defined.

Lemma subscribe_eq (room user_id : string) (s : ConnectionManager) :
  subscribe_user_to_room room user_id s =
    if list_contains room (get_rooms_for_user user_id s) then (Ret false, s)
    else (Ret true,
          {| active_connections := active_connections s;
             user_rooms :=
               <[user_id := get_rooms_for_user user_id s ++ [room]]> (user_rooms s) |}).
Proof.
  unfold subscribe_user_to_room. unfold bind at 1, get at 1.
  destruct (list_contains room (get_rooms_for_user user_id s)); simpl; [done|].
  unfold get_rooms_for_user, dict_get_default, user_rooms_getitem, defaultdict_getitem,
    set_user_rooms.
  py_unfold. destruct (user_rooms s !! user_id); simpl; by rewrite ?insert_insert_eq.
Qed.

Lemma unsubscribe_eq (room user_id : string) (s : ConnectionManager) :
  unsubscribe_user_from_room room user_id s =
    match list_remove room (get_rooms_for_user user_id s) with
    | Ret rooms' =>
        (Ret true,
         {| active_connections := active_connections s;
            user_rooms := <[user_id := rooms']> (user_rooms s) |})
    | Raise _ => (Ret false, s)
    end.
Proof.
  unfold unsubscribe_user_from_room. unfold bind at 1, get at 1.
  destruct (list_contains room (get_rooms_for_user user_id s)) eqn:Hin.
  - apply list_contains_spec in Hin.
    destruct (list_remove_present _ _ Hin) as (rooms' & Hrm & _). rewrite Hrm.
    unfold get_rooms_for_user, dict_get_default in Hin, Hrm.
    unfold user_rooms_getitem, defaultdict_getitem, set_user_rooms. py_unfold.
    destruct (user_rooms s !! user_id) as [rooms|]; simpl in *;
      [|by apply elem_of_nil in Hin].
    by rewrite Hrm.
  - assert (Hnot : room ∉ get_rooms_for_user user_id s).
    { intros H. apply list_contains_spec in H. congruence. }
    by rewrite (list_remove_absent _ _ Hnot).
Qed.

(** X5.  The subscribe endpoint never raises and never adds a duplicate:
    afterwards the room is in the user's list, the list is the old one
    when the room was already there and the old one with the room appended
    otherwise, and a second call changes nothing. *)
Theorem cm_subscribe_idempotent (room user_id : string) (s : ConnectionManager) :
  let s' := exec (subscribe_user_to_room room user_id) s in
  result (subscribe_user_to_room room user_id) s
    = Ret (negb (list_contains room (get_rooms_for_user user_id s)))
  ∧ room ∈ get_rooms_for_user user_id s'
  ∧ get_rooms_for_user user_id s'
    = (if list_contains room (get_rooms_for_user user_id s)
       then get_rooms_for_user user_id s
       else get_rooms_for_user user_id s ++ [room])
  ∧ active_connections s' = active_connections s
  ∧ subscribe_user_to_room room user_id s' = (Ret false, s').
Proof.
  intros s'.
  assert (Hview : get_rooms_for_user user_id s'
                  = if list_contains room (get_rooms_for_user user_id s)
                    then get_rooms_for_user user_id s
                    else get_rooms_for_user user_id s ++ [room]).
  { unfold s', exec. rewrite subscribe_eq.
    destruct (list_contains room (get_rooms_for_user user_id s)); simpl; [done|].
    unfold get_rooms_for_user at 1. simpl. by rewrite view_insert_eq. }
  assert (Hin : room ∈ get_rooms_for_user user_id s').
  { rewrite Hview.
    destruct (list_contains room (get_rooms_for_user user_id s)) eqn:E.
    - by apply list_contains_spec.
    - apply elem_of_app. right. left. }
  split_and!; [| done | done | |].
  - unfold result. rewrite subscribe_eq.
    by destruct (list_contains room (get_rooms_for_user user_id s)).
  - unfold s', exec. rewrite subscribe_eq.
    by destruct (list_contains room (get_rooms_for_user user_id s)).
  - rewrite subscribe_eq. apply list_contains_spec in Hin. by rewrite Hin.
Qed.

(** X6.  The unsubscribe endpoint never raises: it answers whether the
    room was in the user's list, takes out its first occurrence, and
    changes nothing when the room is not there; after a subscribe of a
    room that was not in the list it gives the list back. *)
Theorem cm_unsubscribe_safe (room user_id : string) (s : ConnectionManager) :
  let s' := exec (unsubscribe_user_from_room room user_id) s in
  result (unsubscribe_user_from_room room user_id) s
    = Ret (list_contains room (get_rooms_for_user user_id s))
  ∧ (room ∉ get_rooms_for_user user_id s → s' = s)
  ∧ (∀ pre post,
       get_rooms_for_user user_id s = pre ++ room :: post → room ∉ pre →
       get_rooms_for_user user_id s' = pre ++ post)
  ∧ (room ∉ get_rooms_for_user user_id s →
     get_rooms_for_user user_id
       (exec (unsubscribe_user_from_room room user_id)
          (exec (subscribe_user_to_room room user_id) s))
     = get_rooms_for_user user_id s).
Proof.
  intros s'. split_and!.
  - unfold result. rewrite unsubscribe_eq.
    destruct (list_contains room (get_rooms_for_user user_id s)) eqn:Hin.
    + apply list_contains_spec in Hin.
      destruct (list_remove_present _ _ Hin) as (rooms' & -> & _). done.
    + assert (Hnot : room ∉ get_rooms_for_user user_id s).
      { intros H. apply list_contains_spec in H. congruence. }
      by rewrite (list_remove_absent _ _ Hnot).
  - intros Hnot. unfold s', exec. rewrite unsubscribe_eq.
    by rewrite (list_remove_absent _ _ Hnot).
  - intros pre post Hsplit Hpre. unfold s', exec. rewrite unsubscribe_eq.
    assert (Hrm : list_remove room (get_rooms_for_user user_id s) = Ret (pre ++ post)).
    { apply list_remove_split. by exists pre, post. }
    rewrite Hrm. cbn [snd]. by rewrite rooms_view_insert.
  - intros Hnot. unfold exec at 2. rewrite subscribe_eq.
    assert (Hc : list_contains room (get_rooms_for_user user_id s) = false).
    { destruct (list_contains _ _) eqn:E; [|done]. by apply list_contains_spec in E. }
    rewrite Hc. cbn [snd]. unfold exec. rewrite unsubscribe_eq.
    rewrite rooms_view_insert.
    destruct (list_remove_snoc room (get_rooms_for_user user_id s)) as (r & Hr & _ & Hsame).
    rewrite Hr. cbn [snd active_connections user_rooms]. rewrite rooms_view_insert. auto.
Qed.

Lemma cm_unsubscribe_safe_witness :
  exec (unsubscribe_user_from_room "lobby" "al") init = init
  ∧ get_rooms_for_user "al"
      (exec (unsubscribe_user_from_room "lobby" "al")
         (exec (connect 1 "hall" "al") (exec (connect 1 "lobby" "al") init)))
    = ["hall"].
Proof.
  split.
  - apply (cm_unsubscribe_safe "lobby" "al" init). vm_compute. apply not_elem_of_nil.
  - apply (proj1 (proj2 (proj2
             (cm_unsubscribe_safe "lobby" "al"
                (exec (connect 1 "hall" "al") (exec (connect 1 "lobby" "al") init)))))
             [] ["hall"]).
    + reflexivity.
    + apply not_elem_of_nil.
Defined.

(** X7.  When the unsubscribe endpoint is called between [connect] and
    [disconnect], for a room the user had not joined before, [disconnect]
    takes the handle out of the room and then raises [ValueError]. *)
Theorem cm_unsubscribe_breaks_disconnect
    (websocket : WebSocket) (room user_id : string) (s : ConnectionManager) :
  room ∉ get_rooms_for_user user_id s →
  let s1 := exec (connect websocket room user_id) s in
  let s2 := exec (unsubscribe_user_from_room room user_id) s1 in
  let s3 := exec (disconnect websocket room user_id) s2 in
  result (unsubscribe_user_from_room room user_id) s1 = Ret true
  ∧ result (disconnect websocket room user_id) s2 = Raise ValueError
  ∧ get_connections_for_room room s3 ≡ₚ get_connections_for_room room s.
Proof.
  intros Hnot s1 s2 s3.
  set (conns := get_connections_for_room room s).
  set (rooms := get_rooms_for_user user_id s) in *.
  destruct (list_remove_snoc websocket conns) as (r1 & Hr1 & Hp1 & _).
  destruct (list_remove_snoc room rooms) as (r2 & Hr2 & _ & He2).
  specialize (He2 Hnot). subst r2.
  assert (Hs1 : s1 = {| active_connections :=
                          <[room := conns ++ [websocket]]> (active_connections s);
                        user_rooms := <[user_id := rooms ++ [room]]> (user_rooms s) |}).
  { unfold s1, exec. by rewrite connect_eq. }
  assert (Hu : unsubscribe_user_from_room room user_id s1 =
    (Ret true,
     {| active_connections := <[room := conns ++ [websocket]]> (active_connections s);
        user_rooms := <[user_id := rooms]> (<[user_id := rooms ++ [room]]> (user_rooms s)) |})).
  { rewrite unsubscribe_eq, Hs1. rewrite rooms_view_insert, Hr2. done. }
  assert (Hd : disconnect websocket room user_id s2 =
    (Raise ValueError,
     {| active_connections :=
          match r1 with
          | [] => delete room (<[room := conns ++ [websocket]]> (active_connections s))
          | _ :: _ => <[room := r1]> (<[room := conns ++ [websocket]]> (active_connections s))
          end;
        user_rooms := <[user_id := rooms]> (<[user_id := rooms ++ [room]]> (user_rooms s)) |})).
  { unfold s2, exec. rewrite Hu. cbn [snd]. rewrite disconnect_eq. cbv zeta. simpl.
    rewrite !lookup_insert_eq, Hr1. by rewrite (list_remove_absent _ _ Hnot). }
  split_and!.
  - unfold result. by rewrite Hu.
  - unfold result. by rewrite Hd.
  - unfold s3, exec. rewrite Hd. unfold get_connections_for_room, dict_get_default. simpl.
    destruct r1; [by rewrite lookup_delete_eq|by rewrite lookup_insert_eq].
Qed.

Lemma cm_unsubscribe_breaks_disconnect_witness :
  result (disconnect 1 "lobby" "al")
    (exec (unsubscribe_user_from_room "lobby" "al") (exec (connect 1 "lobby" "al") init))
  = Raise ValueError.
Proof.
  apply (cm_unsubscribe_breaks_disconnect 1 "lobby" "al" init).
  vm_compute. apply not_elem_of_nil.
Defined.

End ConnectionManager_more.

(** ** Acknowledged queue: order, capacity, accounting *)

Section MessageQueue_more.

Import MessageQueue.
Import Clients.

Lemma for_each_preserves {S X} (P : S → Prop) (body : X → M S unit) (xs : list X) :
  (∀ x s, P s → P (exec (body x) s)) →
  ∀ s, P s → P (exec (for_each xs body) s).
Proof.
  intros Hbody. induction xs as [|x xs IH]; intros s Hs; [done|].
  specialize (Hbody x s Hs). unfold exec in *. simpl. unfold bind.
  destruct (body x s) as [[[]|e] s']; simpl in *; auto.
Qed.

(** What [acknowledge] does, whatever the pending index holds. *)
Lemma acknowledge_cases (w : World) (message_id : string) :
  acknowledge message_id w = (Ret false, w)
  ∨ (∃ message rest,
       dict_pop message_id (pending_ack w) = Ret (message, rest)
       ∧ acknowledge message_id w =
           (Ret true, exec (Message_acknowledge message) (set_pending_ack rest w)))
  ∨ (∃ e, acknowledge message_id w = (Raise e, w)).
Proof.
  unfold acknowledge, pending_ack_pop. py_unfold.
  destruct (dict_contains message_id (pending_ack w)); [|by left].
  destruct (dict_pop message_id (pending_ack w)) as [[a rest]|e] eqn:Hpop.
  - right. left. by exists a, rest.
  - right. right. by exists e.
Qed.

Lemma extends_refl (w : World) : extends w w.
Proof. unfold extends. split_and!; auto. Qed.

Lemma extends_trans (w1 w2 w3 : World) : extends w1 w2 → extends w2 w3 → extends w1 w3.
Proof.
  intros (Hm & Ht & Hn & Ho) (Hm' & Ht' & Hn' & Ho').
  unfold extends. split_and!; try congruence; try lia.
  intros a Ha. destruct (Ho a Ha) as (H1 & H2 & H3 & H4 & H5).
  destruct (Ho' a) as (H1' & H2' & H3' & H4' & H5'); [lia|].
  split_and!; try congruence. auto.
Qed.

Lemma extends_frame (w : World) (q : list addr) (p : dict addr) :
  extends w (set_queue q (set_pending_ack p w)).
Proof. unfold extends. simpl. split_and!; auto. Qed.

Lemma extends_enqueue (w : World) (uuid : string) (now : Z) (content : string)
    (priority : Z) :
  extends w (exec (enqueue uuid now content priority) w).
Proof.
  unfold exec. rewrite enqueue_eq. cbn [snd].
  assert (Hobj : ∀ a, a < next_addr w →
            (if decide (a = next_addr w)
             then mkMessage uuid content priority now false else objects w a)
            = objects w a).
  { intros a Ha. rewrite decide_False; [done|lia]. }
  destruct (full w); unfold extends; simpl; split_and!; auto;
    intros a Ha; rewrite (Hobj a Ha); auto.
Qed.

Lemma extends_dequeue (w : World) : extends w (exec dequeue w).
Proof.
  unfold exec. rewrite dequeue_eq. destruct (queue w); simpl.
  - apply extends_refl.
  - unfold extends. simpl. split_and!; auto.
Qed.

Lemma extends_mark (w : World) (a : addr) : extends w (exec (Message_acknowledge a) w).
Proof.
  unfold Message_acknowledge, exec, modify, extends. simpl. split_and!; auto.
  intros x Hx. destruct (decide (x = a)) as [->|]; simpl; auto.
Qed.

Lemma extends_acknowledge (w : World) (message_id : string) :
  extends w (exec (acknowledge message_id) w).
Proof.
  unfold exec.
  destruct (acknowledge_cases w message_id)
    as [->|[(a & rest & _ & ->)|(e & ->)]]; cbn [snd].
  - apply extends_refl.
  - apply extends_trans with (set_pending_ack rest w).
    + unfold extends. simpl. split_and!; auto.
    + apply extends_mark.
  - apply extends_refl.
Qed.

Lemma extends_requeue_body (now : Z) (item : string * addr) (w : World) :
  extends w (exec (requeue_body now item) w).
Proof.
  unfold requeue_body, pending_ack_pop, put_nowait. py_unfold.
  destruct (expired now w item.2); [|apply extends_refl].
  destruct (dict_pop item.1 (pending_ack w)) as [[a rest]|e]; [|apply extends_refl].
  destruct (full _); simpl; unfold extends; simpl; split_and!; auto.
Qed.

Lemma extends_requeue (w : World) (now : Z) :
  extends w (exec (requeue_unacknowledged now) w).
Proof.
  unfold requeue_unacknowledged. unfold exec, bind, get.
  apply (for_each_preserves (extends w)); [|apply extends_refl].
  intros item s Hs. eapply extends_trans; [exact Hs|apply extends_requeue_body].
Qed.

Lemma extends_step (w : World) (t : Z) (c : call) : extends w (exec (step t c) w).
Proof.
  destruct c; simpl; rewrite ?exec_bind_ret.
  - apply extends_enqueue.
  - apply extends_dequeue.
  - apply extends_acknowledge.
  - apply extends_requeue.
Qed.

Lemma extends_run (trace : list (Z * call)) : ∀ w, extends w (run trace w).
Proof.
  induction trace as [|[t c] trace IH]; intros w; [apply extends_refl|].
  change (run ((t, c) :: trace) w) with (run trace (exec (step t c) w)).
  eapply extends_trans; [apply extends_step|apply IH].
Qed.

(** X8.  No operation of the queue ever changes the identifier, the
    content, the priority or the time stamp of a message it has created,
    nor the capacity or the acknowledgement timeout; the acknowledged
    flag only goes from false to true. *)
Theorem mq_messages_immutable (trace : list (Z * call)) (w : World) (a : addr) :
  a < next_addr w →
  let w' := run trace w in
  maxsize w' = maxsize w
  ∧ ack_timeout w' = ack_timeout w
  ∧ id (objects w' a) = id (objects w a)
  ∧ content (objects w' a) = content (objects w a)
  ∧ priority (objects w' a) = priority (objects w a)
  ∧ timestamp (objects w' a) = timestamp (objects w a)
  ∧ (acknowledged (objects w a) = true → acknowledged (objects w' a) = true).
Proof.
  intros Ha w'. destruct (extends_run trace w) as (Hm & Ht & _ & Ho).
  destruct (Ho a Ha) as (H1 & H2 & H3 & H4 & H5). split_and!; auto.
Qed.

Lemma mq_messages_immutable_witness :
  let w := run [(5%Z, Enqueue "u1" "hello" 3)] (init 10) in
  let trace := [(6%Z, Dequeue); (100%Z, Requeue); (101%Z, Dequeue);
                (102%Z, Acknowledge "u1")] in
  0 < next_addr w
  ∧ timestamp (objects (run trace w) 0) = 5%Z.
Proof.
  cbv zeta. split; [vm_compute; lia|].
  destruct (mq_messages_immutable
              [(6%Z, Dequeue); (100%Z, Requeue); (101%Z, Dequeue);
               (102%Z, Acknowledge "u1")]
              (run [(5%Z, Enqueue "u1" "hello" 3)] (init 10)) 0)
    as (_ & _ & _ & _ & _ & Hts & _).
  - vm_compute. lia.
  - rewrite Hts. reflexivity.
Defined.



(** *** Capacity *)

Lemma within_capacity_put (m : Z) (a : addr) (w : World) :
  (0 < m)%Z → within_capacity m w → within_capacity m (exec (put_nowait a) w).
Proof.
  intros Hm [Hmax Hlen]. unfold exec, put_nowait, full.
  destruct (bool_decide (0 < maxsize w)%Z) eqn:H1;
    destruct (bool_decide (maxsize w <= Z.of_nat (length (queue w)))%Z) eqn:H2;
    simpl; try done.
  - apply bool_decide_eq_false in H2. split; simpl; [done|].
    rewrite length_app. simpl. lia.
  - apply bool_decide_eq_false in H1. lia.
  - apply bool_decide_eq_false in H1. lia.
Qed.

Lemma within_capacity_step (m : Z) (w : World) (t : Z) (c : call) :
  (0 < m)%Z → within_capacity m w → within_capacity m (exec (step t c) w).
Proof.
  intros Hm Hw. destruct c as [uuid content priority| |message_id|]; simpl;
    rewrite ?exec_bind_ret.
  - unfold exec. rewrite enqueue_eq. cbn [snd].
    set (w1 := set_objects _ _ w).
    assert (H1 : within_capacity m w1) by (destruct Hw; by split).
    pose proof (within_capacity_put m (next_addr w) w1 Hm H1) as Hput.
    unfold exec, put_nowait in Hput. change (full w1) with (full w) in Hput.
    by destruct (full w).
  - unfold exec. rewrite dequeue_eq. destruct Hw as [Hmax Hlen].
    destruct (queue w) eqn:Hq; simpl; [by split; [|rewrite Hq]|].
    split; simpl in *; [done|lia].
  - unfold exec.
    destruct (acknowledge_cases w message_id)
      as [->|[(a & rest & _ & ->)|(e & ->)]]; cbn [snd]; try done;
      by destruct Hw.
  - unfold requeue_unacknowledged. unfold exec, bind, get.
    apply (for_each_preserves (within_capacity m)); [|done].
    intros item s Hs. unfold requeue_body, pending_ack_pop. unfold exec, bind, get, ret.
    destruct (expired t s item.2); [|done].
    destruct (dict_pop item.1 (pending_ack s)) as [[a rest]|e]; [|done].
    apply (within_capacity_put m item.2 (set_pending_ack rest s) Hm).
    by destruct Hs.
Qed.

(** X10.  A queue built with a capacity [max_size > 0] never holds more
    than [max_size] deliverable messages, whatever is called on it. *)
Theorem mq_queue_bounded (max_size : Z) (trace : list (Z * call)) :
  (0 < max_size)%Z →
  (Z.of_nat (get_queue_size (run trace (init max_size))) <= max_size)%Z.
Proof.
  intros Hm.
  assert (H : ∀ w, within_capacity max_size w → within_capacity max_size (run trace w)).
  { induction trace as [|[t c] trace IH]; intros w Hw; [done|].
    change (run ((t, c) :: trace) w) with (run trace (exec (step t c) w)).
    apply IH. by apply within_capacity_step. }
  destruct (H (init max_size)) as [_ Hlen]; [|exact Hlen].
  split; simpl; [done|lia].
Qed.

Lemma mq_queue_bounded_witness :
  (Z.of_nat (get_queue_size
     (run [(0%Z, Enqueue "u1" "a" 0); (1%Z, Enqueue "u2" "b" 0);
           (2%Z, Enqueue "u3" "c" 0)] (init 2))) <= 2)%Z.
Proof. apply mq_queue_bounded. lia. Defined.

(** *** Accounting on an unbounded queue *)

Lemma unbounded_not_full (w : World) : (maxsize w <= 0)%Z → full w = false.
Proof.
  intros H. unfold full. rewrite bool_decide_eq_false_2; [done|lia].
Qed.

Lemma requeue_unbounded (w : World) (now : Z) :
  (maxsize w <= 0)%Z → NoDup (pending_ack w).*1 →
  ∃ w', requeue_unacknowledged now w = (Ret tt, w')
    ∧ pending_ack w' = filter (λ kv, expired now w kv.2 ≠ true) (pending_ack w)
    ∧ queue w' = queue w ++ (filter (λ kv, expired now w kv.2 = true) (pending_ack w)).*2
    ∧ objects w' = objects w ∧ next_addr w' = next_addr w.
Proof.
  intros Hmax Hnd.
  destruct (requeue_loop now (pending_ack w) [] w eq_refl Hnd)
    as (w' & Hrun & Hp & Hq & Ho & Hn & _).
  { left. done. }
  exists w'. unfold requeue_unacknowledged. py_unfold. by rewrite Hrun.
Qed.

Lemma accounted_step (issued : list string) (w : World) (t : Z) (c : call) :
  (maxsize w <= 0)%Z → invariant issued w → accounted w →
  accounted (exec (step t c) w).
Proof.
  intros Hmax Hinv Hacc.
  destruct c as [uuid content priority| |message_id|]; simpl; rewrite ?exec_bind_ret.
  - unfold exec. rewrite enqueue_eq, (unbounded_not_full w Hmax). cbn [snd].
    intros a Ha. simpl in *.
    destruct (decide (a = next_addr w)) as [->|Hne].
    + left. apply elem_of_app. right. left.
    + destruct (Hacc a) as [H|[H|H]]; [lia| | |]; auto.
      left. apply elem_of_app. by left.
  - unfold exec. rewrite dequeue_eq.
    destruct (queue w) as [|b rest] eqn:Hq; [done|]. cbn [snd].
    assert (Hfresh : id (objects w b) ∉ (pending_ack w).*1).
    { intros ([k x] & Hk & Hin)%list_elem_of_fmap. simpl in Hk.
      assert (Hx : x ∈ (pending_ack w).*2) by (apply list_elem_of_fmap; by exists (k, x)).
      assert (b = x).
      { apply (inv_id_inj _ _ Hinv).
        - apply (inv_allocated _ _ Hinv). left. rewrite Hq. left.
        - apply (inv_allocated _ _ Hinv). by right.
        - rewrite (inv_keyed _ _ Hinv _ _ Hin). done. }
      subst x. apply (inv_disjoint _ _ Hinv b); [rewrite Hq; left|done]. }
    rewrite (dict_setitem_fresh _ _ _ Hfresh).
    intros a Ha. simpl in *. destruct (Hacc a Ha) as [H|[H|H]]; auto.
    + rewrite Hq in H. apply elem_of_cons in H as [->|H]; auto.
      right. left. rewrite fmap_app. apply elem_of_app. right. left.
    + right. left. rewrite fmap_app. apply elem_of_app. by left.
  - destruct (acknowledge_eq w message_id (inv_pending_keys _ _ Hinv))
      as [[_ Heq]|(b & Hin & Heq)]; unfold exec at 1; rewrite Heq; cbn [snd]; [done|].
    intros a Ha.
    unfold Message_acknowledge, exec, modify in *. simpl in *.
    destruct (decide (a = b)) as [->|Hne]; [by right; right|].
    destruct (Hacc a Ha) as [H|[H|H]]; auto.
    right. left. apply list_elem_of_fmap in H as ([k x] & -> & Hx). simpl in *.
    apply list_elem_of_fmap. exists (k, x). split; [done|].
    apply list_elem_of_filter. split; [|done]. simpl. intros ->.
    apply Hne. eapply NoDup_keys_unique; eauto using inv_pending_keys.
  - destruct (requeue_unbounded w t Hmax (inv_pending_keys _ _ Hinv))
      as (w' & Hrun & Hp & Hqueue & Ho & Hn).
    unfold exec. rewrite Hrun. cbn [snd].
    intros a Ha. rewrite Hn in Ha. rewrite Hp, Hqueue, Ho.
    destruct (Hacc a Ha) as [H|[H|H]]; auto.
    + left. apply elem_of_app. by left.
    + apply list_elem_of_fmap in H as ([k x] & -> & Hx). simpl.
      destruct (decide (expired t w x = true)) as [He|He].
      * left. apply elem_of_app. right. apply list_elem_of_fmap.
        exists (k, x). split; [done|]. by apply list_elem_of_filter.
      * right. left. apply list_elem_of_fmap.
        exists (k, x). split; [done|]. by apply list_elem_of_filter.
Qed.

Lemma next_addr_run (trace : list (Z * call)) :
  ∀ w, next_addr (run trace w) = next_addr w + length (uuids trace).
Proof.
  induction trace as [|[t c] trace IH]; intros w; [simpl; lia|].
  change (run ((t, c) :: trace) w) with (run trace (exec (step t c) w)).
  rewrite IH, uuids_cons.
  destruct c as [uuid content priority| |message_id|]; simpl; rewrite ?exec_bind_ret.
  - unfold exec. rewrite enqueue_eq. cbn [snd]. destruct (full w); simpl; lia.
  - unfold exec. rewrite dequeue_eq. by destruct (queue w).
  - destruct (extends_acknowledge w message_id) as (_ & _ & Hle & _).
    unfold exec in *.
    destruct (acknowledge_cases w message_id)
      as [->|[(a & rest & _ & ->)|(e & ->)]]; cbn [snd]; try done.
  - assert (H : next_addr (exec (requeue_unacknowledged t) w) = next_addr w); [|by rewrite H].
    unfold requeue_unacknowledged. unfold exec, bind, get.
    apply (for_each_preserves (λ s, next_addr s = next_addr w)); [|done].
    intros item s Hs. unfold requeue_body, pending_ack_pop, put_nowait.
    unfold exec, bind, get, ret.
    destruct (expired t s item.2); [|done].
    destruct (dict_pop item.1 (pending_ack s)) as [[a rest]|e]; [|done].
    by destruct (full _).
Qed.

Lemma accounted_run (trace : list (Z * call)) :
  ∀ issued w,
    (maxsize w <= 0)%Z → invariant issued w → accounted w →
    NoDup (issued ++ uuids trace) →
    accounted (run trace w).
Proof.
  induction trace as [|[t c] trace IH]; intros issued w Hmax Hinv Hacc Hnd; [done|].
  change (run ((t, c) :: trace) w) with (run trace (exec (step t c) w)).
  assert (Hsplit : uuids ((t, c) :: trace) = uuids [(t, c)] ++ uuids trace).
  { rewrite !uuids_cons. by destruct c. }
  rewrite Hsplit, app_assoc in Hnd.
  apply (IH (issued ++ uuids [(t, c)])); [| | |done].
  - destruct (extends_step w t c) as (-> & _). done.
  - apply inv_step; [done|]. by apply NoDup_app in Hnd as (? & _ & _).
  - by apply (accounted_step issued).
Qed.

(** X11.  On an unbounded queue ([max_size <= 0]) no message is ever
    lost: as long as [uuid4] never repeats an identifier, every message
    created by an [enqueue] call is in the queue, in the pending index or
    acknowledged, and there are as many messages as [enqueue] calls. *)
Theorem mq_no_loss_unbounded (max_size : Z) (trace : list (Z * call)) :
  (max_size <= 0)%Z →
  NoDup (uuids trace) →
  let w := run trace (init max_size) in
  next_addr w = length (uuids trace)
  ∧ ∀ a, a < next_addr w →
         a ∈ queue w ∨ a ∈ (pending_ack w).*2 ∨ acknowledged (objects w a) = true.
Proof.
  intros Hmax Hnd w. split.
  - unfold w. by rewrite next_addr_run.
  - apply (accounted_run trace [] (init max_size)); auto.
    + apply inv_init.
    + intros a Ha. simpl in Ha. lia.
Qed.

Lemma mq_no_loss_unbounded_witness :
  let trace := [(0%Z, Enqueue "u1" "a" 0); (1%Z, Dequeue);
                (2%Z, Enqueue "u2" "b" 0); (100%Z, Requeue);
                (101%Z, Dequeue); (102%Z, Acknowledge "u2")] in
  next_addr (run trace (init 0)) = 2.
Proof.
  cbv zeta.
  apply (mq_no_loss_unbounded 0
           [(0%Z, Enqueue "u1" "a" 0); (1%Z, Dequeue);
            (2%Z, Enqueue "u2" "b" 0); (100%Z, Requeue);
            (101%Z, Dequeue); (102%Z, Acknowledge "u2")]).
  - lia.
  - compute_done.
Defined.

(** *** Redelivery scans *)

Lemma filter_filter_none {X} (P : X → Prop) `{∀ x, Decision (P x)} (l : list X) :
  filter P (filter (λ x, ¬ P x) l) = [].
Proof.
  induction l as [|x l IH]; [done|].
  rewrite (filter_cons (λ x, ¬ P x)). destruct (decide (¬ P x)); [|done].
  by rewrite filter_cons_False.
Qed.

Lemma filter_filter_same {X} (P : X → Prop) `{∀ x, Decision (P x)} (l : list X) :
  filter P (filter P l) = filter P l.
Proof.
  apply filter_all. apply Forall_forall. by intros x [? _]%list_elem_of_filter.
Qed.

Lemma length_filter_split {X} (P : X → Prop) `{∀ x, Decision (P x)} (l : list X) :
  length (filter P l) + length (filter (λ x, ¬ P x) l) = length l.
Proof.
  induction l as [|x l IH]; [done|].
  rewrite !filter_cons. destruct (decide (P x)).
  - rewrite decide_False by auto. simpl. lia.
  - rewrite decide_True by auto. simpl. lia.
Qed.

(** X12.  When the queue has room for the expired messages, a scan
    returns, keeps the number of messages held (queue plus pending index)
    the same, and a second scan at the same time finds nothing left to
    requeue: it returns and changes nothing. *)
Theorem mq_requeue_idempotent (w : World) (now : Z) :
  NoDup (pending_ack w).*1 →
  has_room (length (filter (λ kv, expired now w kv.2 = true) (pending_ack w))) w →
  ∃ w',
    requeue_unacknowledged now w = (Ret tt, w')
    ∧ get_queue_size w' + get_pending_ack_size w'
      = get_queue_size w + get_pending_ack_size w
    ∧ result (requeue_unacknowledged now) w' = Ret tt
    ∧ queue (exec (requeue_unacknowledged now) w') = queue w'
    ∧ pending_ack (exec (requeue_unacknowledged now) w') = pending_ack w'.
Proof.
  intros Hnd Hroom.
  destruct (requeue_loop now (pending_ack w) [] w eq_refl Hnd Hroom)
    as (w' & Hrun & Hp & Hq & Ho & Hn & Hm & Ht).
  simpl in Hp.
  assert (Hexp : ∀ a, expired now w' a = expired now w a).
  { intros a. unfold expired. by rewrite Ho, Ht. }
  assert (Hnone : filter (λ kv, expired now w' kv.2 = true) (pending_ack w') = []).
  { rewrite Hp.
    rewrite (list_filter_iff _ (λ kv, expired now w kv.2 = true))
      by (intros kv; by rewrite Hexp).
    apply (filter_filter_none (λ kv : string * addr, expired now w kv.2 = true)). }
  destruct (requeue_loop now (pending_ack w') [] w' eq_refl)
    as (w'' & Hrun' & Hp' & Hq' & _).
  { rewrite Hp. by apply NoDup_keys_filter. }
  { rewrite Hnone. simpl. unfold has_room in *. rewrite Hm, Hq.
    rewrite length_app, length_fmap. lia. }
  exists w'. split_and!.
  - unfold requeue_unacknowledged. py_unfold. by rewrite Hrun.
  - unfold get_queue_size, get_pending_ack_size. rewrite Hq, Hp.
    rewrite length_app, length_fmap.
    pose proof (length_filter_split (λ kv : string * addr, expired now w kv.2 = true)
                  (pending_ack w)).
    lia.
  - unfold requeue_unacknowledged. py_unfold. by rewrite Hrun'.
  - unfold requeue_unacknowledged. py_unfold. rewrite Hrun'. simpl.
    by rewrite Hq', Hnone, app_nil_r.
  - unfold requeue_unacknowledged. py_unfold. rewrite Hrun'. simpl.
    rewrite Hp'. simpl. apply filter_all. apply Forall_forall.
    intros kv Hkv Hexp'. assert (kv ∈ []); [|by apply elem_of_nil in H].
    rewrite <- Hnone. by apply list_elem_of_filter.
Qed.

Lemma mq_requeue_idempotent_witness :
  let w := run [(0%Z, Enqueue "u1" "a" 0); (1%Z, Enqueue "u2" "b" 0);
                (80%Z, Enqueue "u3" "c" 0); (90%Z, Dequeue); (91%Z, Dequeue);
                (92%Z, Dequeue)] (init 10) in
  ∃ w', requeue_unacknowledged 100 w = (Ret tt, w')
    ∧ queue (exec (requeue_unacknowledged 100) w') = queue w'.
Proof.
  set (w := run _ _). cbv zeta.
  destruct (mq_requeue_idempotent w 100) as (w' & Hrun & _ & _ & Hq & _).
  - compute_done.
  - vm_compute. right. discriminate.
  - exists w'. split; [exact Hrun|exact Hq].
Defined.

(** *** Publisher and subscriber *)

Lemma acknowledge_last (v : World) (k : string) (a : addr) (p : dict addr) :
  pending_ack v = p ++ [(k, a)] → k ∉ p.*1 →
  acknowledge k v = (Ret true, exec (Message_acknowledge a) (set_pending_ack p v)).
Proof.
  intros Hp Hk. unfold acknowledge, pending_ack_pop. py_unfold.
  assert (Hc : dict_contains k (pending_ack v) = true).
  { apply dict_contains_spec. rewrite Hp, fmap_app. apply elem_of_app. right. left. }
  rewrite Hc, Hp, (dict_pop_app k a p []) by done. by rewrite app_nil_r.
Qed.

Lemma acknowledge_absent (v : World) (k : string) :
  k ∉ (pending_ack v).*1 → acknowledge k v = (Ret false, v).
Proof.
  intros Hk. unfold acknowledge. py_unfold.
  destruct (dict_contains k (pending_ack v)) eqn:E; [|done].
  by apply dict_contains_spec in E.
Qed.

(** X13.  On a queue with no deliverable message and room for one, a
    message that is published is what the next [receive_message] returns;
    acknowledging its id then returns true, marks it acknowledged and
    leaves the queue and the pending index as they were before the
    publish; acknowledging it once more returns false. *)
Theorem mq_publish_receive_acknowledge
    (w : World) (uuid : string) (now : Z) (message_content : string) (priority : Z) :
  queue w = [] →
  has_room 1 w →
  uuid ∉ (pending_ack w).*1 →
  let message := next_addr w in
  let w1 := exec (publish uuid now message_content priority) w in
  let w2 := exec receive_message w1 in
  let w3 := exec (acknowledge_message uuid) w2 in
  result (publish uuid now message_content priority) w = Ret message
  ∧ result receive_message w1 = Ret (Some message)
  ∧ content (objects w2 message) = message_content
  ∧ result (acknowledge_message uuid) w2 = Ret true
  ∧ acknowledged (objects w3 message) = true
  ∧ queue w3 = [] ∧ pending_ack w3 = pending_ack w
  ∧ result (acknowledge_message uuid) w3 = Ret false.
Proof.
  intros Hq Hroom Hfresh message w1 w2 w3.
  assert (Hfull : full w = false).
  { unfold full, has_room in *. rewrite Hq in *. simpl in *.
    destruct (bool_decide (0 < maxsize w)%Z) eqn:H1; [|done].
    apply bool_decide_eq_true in H1. rewrite bool_decide_eq_false_2; [done|lia]. }
  set (m := mkMessage uuid message_content priority now false).
  set (o := λ x, if decide (x = message) then m else objects w x).
  assert (Hpub : publish uuid now message_content priority w =
            (Ret message, set_queue [message] (set_objects o (S message) w))).
  { unfold publish, bind. rewrite enqueue_eq, Hfull, Hq. done. }
  assert (Hw1 : w1 = set_queue [message] (set_objects o (S message) w)).
  { unfold w1, exec. by rewrite Hpub. }
  assert (Ho : o message = m) by (unfold o; by rewrite decide_True).
  assert (Hrecv : receive_message w1 =
            (Ret (Some message),
             set_pending_ack (pending_ack w ++ [(uuid, message)])
               (set_queue [] (set_objects o (S message) w)))).
  { unfold receive_message, bind. rewrite dequeue_eq, Hw1. simpl. rewrite Ho. simpl.
    by rewrite (dict_setitem_fresh _ _ _ Hfresh). }
  assert (Hw2 : w2 = set_pending_ack (pending_ack w ++ [(uuid, message)])
                       (set_queue [] (set_objects o (S message) w))).
  { unfold w2, exec. by rewrite Hrecv. }
  assert (Hack : acknowledge_message uuid w2 =
            (Ret true,
             exec (Message_acknowledge message)
               (set_pending_ack (pending_ack w)
                  (set_queue [] (set_objects o (S message) w))))).
  { unfold acknowledge_message, bind.
    rewrite (acknowledge_last w2 uuid message (pending_ack w)); [by rewrite Hw2| |done].
    by rewrite Hw2. }
  assert (Hw3 : w3 = exec (Message_acknowledge message)
                       (set_pending_ack (pending_ack w)
                          (set_queue [] (set_objects o (S message) w)))).
  { unfold w3, exec at 1. by rewrite Hack. }
  split_and!.
  - unfold result. by rewrite Hpub.
  - unfold result. by rewrite Hrecv.
  - rewrite Hw2. simpl. by rewrite Ho.
  - unfold result. by rewrite Hack.
  - rewrite Hw3. unfold Message_acknowledge, exec, modify. simpl.
    by rewrite decide_True.
  - by rewrite Hw3.
  - by rewrite Hw3.
  - unfold result, acknowledge_message, bind.
    rewrite (acknowledge_absent w3 uuid); [done|]. by rewrite Hw3.
Qed.

Lemma mq_publish_receive_acknowledge_witness :
  result (acknowledge_message "u1")
    (exec receive_message (exec (publish "u1" 0 "hello" 0) (init 10)))
  = Ret true.
Proof.
  apply (mq_publish_receive_acknowledge (init 10) "u1" 0 "hello" 0).
  - reflexivity.
  - vm_compute. right. discriminate.
  - apply not_elem_of_nil.
Defined.

(** X14.  A message that is still in the queue cannot be acknowledged:
    in every state that the operations reach while [uuid4] never repeats
    an identifier, [acknowledge] with the id of a deliverable message (one
    never dequeued, or requeued by a scan) returns false and changes
    nothing. *)
Theorem mq_acknowledge_needs_dequeue
    (max_size : Z) (trace : list (Z * call)) (message : addr) :
  NoDup (uuids trace) →
  let w := run trace (init max_size) in
  message ∈ queue w →
  acknowledge (id (objects w message)) w = (Ret false, w).
Proof.
  intros Hnd w Hin.
  pose proof (inv_run trace [] (init max_size) (inv_init max_size) Hnd) as Hinv.
  fold w in Hinv.
  destruct (acknowledge_eq w (id (objects w message)) (inv_pending_keys _ _ Hinv))
    as [[_ Heq]|(b & Hb & _)]; [done|].
  assert (message = b).
  { apply (inv_id_inj _ _ Hinv).
    - apply (inv_allocated _ _ Hinv). by left.
    - apply (inv_allocated _ _ Hinv). right. apply list_elem_of_fmap. by eexists (_, b).
    - by rewrite (inv_keyed _ _ Hinv _ _ Hb). }
  subst b. destruct (inv_disjoint _ _ Hinv message Hin).
  apply list_elem_of_fmap. by eexists (_, message).
Qed.

Lemma mq_acknowledge_needs_dequeue_witness :
  let w := run [(0%Z, Enqueue "u1" "a" 0); (1%Z, Dequeue); (40%Z, Requeue)] (init 10) in
  acknowledge (id (objects w 0)) w = (Ret false, w).
Proof.
  apply (mq_acknowledge_needs_dequeue 10
           [(0%Z, Enqueue "u1" "a" 0); (1%Z, Dequeue); (40%Z, Requeue)] 0).
  - compute_done.
  - vm_compute. left.
Defined.

(** *** First in, first out *)

Lemma receive_message_eq (w : World) :
  receive_message w =
    match queue w with
    | [] => (Ret None, w)
    | a :: rest =>
        (Ret (Some a),
         set_pending_ack (dict_setitem (id (objects w a)) a (pending_ack w))
           (set_queue rest w))
    end.
Proof. unfold receive_message, bind. rewrite dequeue_eq. by destruct (queue w). Qed.

Lemma receive_n_eq (n : nat) :
  ∀ w : World,
    ∃ w', receive_n n w =
            (Ret ((Some <$> take n (queue w)) ++ replicate (n - length (queue w)) None), w')
      ∧ queue w' = drop n (queue w).
Proof.
  induction n as [|n IH]; intros w.
  - exists w. simpl. by rewrite drop_0.
  - cbn [receive_n]. unfold bind at 1. rewrite receive_message_eq.
    destruct (queue w) as [|a rest] eqn:Hq.
    + destruct (IH w) as (w' & Hrun & Hqueue). rewrite Hq in Hrun, Hqueue.
      exists w'. unfold bind at 1. rewrite Hrun. unfold ret. simpl.
      rewrite take_nil, drop_nil in *. simpl in *. rewrite Nat.sub_0_r. done.
    + set (w1 := set_pending_ack _ _).
      destruct (IH w1) as (w' & Hrun & Hqueue).
      exists w'. unfold bind at 1. rewrite Hrun. unfold ret. done.
Qed.


Lemma publish_all_spec (items : list (string * Z * string * Z)) :
  ∀ w : World,
    has_room (length items) w →
    ∃ w', publish_all items w = (Ret (seq (next_addr w) (length items)), w')
      ∧ queue w' = queue w ++ seq (next_addr w) (length items)
      ∧ (λ a, content (objects w' a)) <$> seq (next_addr w) (length items)
        = (λ item, item.1.2) <$> items
      ∧ (∀ a, a < next_addr w → objects w' a = objects w a).
Proof.
  induction items as [|[[[uuid now] message_content] priority] items IH]; intros w Hroom.
  - exists w. simpl. rewrite app_nil_r. done.
  - assert (Hfull : full w = false).
    { unfold full, has_room in *. simpl in Hroom.
      destruct (bool_decide (0 < maxsize w)%Z) eqn:H1; [|done].
      apply bool_decide_eq_true in H1. rewrite bool_decide_eq_false_2; [done|lia]. }
    cbn [publish_all]. unfold bind at 1, publish at 1, bind at 1.
    rewrite enqueue_eq, Hfull. unfold ret at 1.
    set (m := mkMessage uuid message_content priority now false).
    set (w1 := set_queue _ _).
    destruct (IH w1) as (w' & Hrun & Hq & Hc & Ho).
    { unfold has_room in *. simpl in *. rewrite length_app. simpl. lia. }
    exists w'. unfold bind at 1. rewrite Hrun. unfold ret.
    change (next_addr w1) with (S (next_addr w)) in *.
    change (queue w1) with (queue w ++ [next_addr w]) in *.
    split_and!.
    + done.
    + rewrite Hq. simpl. by rewrite <- app_assoc.
    + cbn [length seq]. rewrite !fmap_cons, Hc. f_equal.
      rewrite Ho by lia. simpl. by rewrite decide_True.
    + intros a Ha. rewrite Ho by lia. simpl. rewrite decide_False; [done|lia].
Qed.

(** X16.  First in, first out: when the messages of a publisher all fit
    into the empty queue, as many [receive_message] calls return exactly
    these messages, in the order of publication, and empty the queue. *)
Theorem mq_fifo (w : World) (items : list (string * Z * string * Z)) :
  queue w = [] →
  has_room (length items) w →
  let w1 := exec (publish_all items) w in
  ∃ messages,
    result (publish_all items) w = Ret messages
    ∧ result (receive_n (length items)) w1 = Ret (Some <$> messages)
    ∧ (λ a, content (objects w1 a)) <$> messages = (λ item, item.1.2) <$> items
    ∧ queue (exec (receive_n (length items)) w1) = [].
Proof.
  intros Hempty Hroom w1.
  destruct (publish_all_spec items w Hroom) as (w' & Hrun & Hq & Hc & _).
  assert (Hw1 : w1 = w') by (unfold w1, exec; by rewrite Hrun). rewrite Hw1.
  rewrite Hempty in Hq. simpl in Hq.
  exists (seq (next_addr w) (length items)).
  destruct (receive_n_eq (length items) w') as (w2 & Hrecv & Hrest).
  assert (Hres : result (receive_n (length items)) w'
                 = Ret ((Some <$> take (length items) (queue w'))
                        ++ replicate (length items - length (queue w')) None))
    by (unfold result; by rewrite Hrecv).
  assert (Hexec : queue (exec (receive_n (length items)) w') = queue w2)
    by (unfold exec; by rewrite Hrecv).
  rewrite Hexec, Hrest.
  rewrite Hq in Hres |- *. rewrite length_seq in Hres.
  rewrite Nat.sub_diag in Hres. simpl in Hres. rewrite app_nil_r in Hres.
  rewrite take_ge in Hres by (rewrite length_seq; lia).
  rewrite drop_ge by (rewrite length_seq; lia).
  split_and!; [|done|done|done].
  unfold result. by rewrite Hrun.
Qed.

Lemma mq_fifo_witness :
  let items := [("u1", 0%Z, "a", 0%Z); ("u2", 1%Z, "b", 5%Z); ("u3", 2%Z, "c", 1%Z)] in
  result (receive_n 3) (exec (publish_all items) (init 3))
  = Ret [Some 0; Some 1; Some 2].
Proof.
  cbv zeta.
  destruct (mq_fifo (init 3)
              [("u1", 0%Z, "a", 0%Z); ("u2", 1%Z, "b", 5%Z); ("u3", 2%Z, "c", 1%Z)])
    as (messages & Hpub & Hrecv & _).
  - reflexivity.
  - vm_compute. right. discriminate.
  - vm_compute in Hpub. injection Hpub as <-. exact Hrecv.
Defined.

End MessageQueue_more.

(** ** Priority queue: peeking and the order of consumption *)

Section PriorityQueue_more.

Import PriorityQueue.
Import PriorityMessageQueue.

Context {A : Type}.
Variable payload_eq : A -> A -> bool.
Variable payload_lt : A -> A -> outcome bool.

Local Abbreviation run := (PriorityQueue.run payload_eq payload_lt).
Local Abbreviation dequeue_message := (PriorityMessageQueue.dequeue_message payload_eq payload_lt).
Local Abbreviation dequeue_messages := (PriorityMessageQueue.dequeue_messages payload_eq payload_lt).

Lemma dequeue_message_eq (s : PriorityQueue A) :
  invariant s → queue s ≠ [] →
  ∃ item s',
    dequeue_message s = (Ret item.2, s')
    ∧ queue s !! 0 = Some item
    ∧ queue s ≡ₚ item :: queue s'
    ∧ (∀ x, x ∈ queue s' → heapq.key_lt item x)
    ∧ counter s' = counter s
    ∧ invariant s'.
Proof.
  intros Hinv Hne.
  destruct (dequeue_spec payload_eq payload_lt s Hinv Hne)
    as (item & s' & Hrun & Hroot & Hp & _ & Hmin & Hc & Hinv').
  exists item, s'. unfold PriorityMessageQueue.dequeue_message, bind.
  rewrite Hrun. done.
Qed.

(** X17.  In every reachable state [peek_message] leaves the queue as it
    is; it returns [None] on the empty queue, and otherwise the message
    that the next [dequeue_message] returns. *)
Theorem pq_peek_agrees_with_dequeue (calls : list (call A)) :
  let s := run calls init in
  exec peek_message s = s
  ∧ (queue s = [] → result peek_message s = Ret None)
  ∧ (queue s ≠ [] →
     ∃ message,
       result peek_message s = Ret (Some message)
       ∧ result dequeue_message s = Ret message).
Proof.
  intros s.
  pose proof (pq_inv_run payload_eq payload_lt calls _ pq_inv_init) as Hinv.
  fold s in Hinv.
  assert (Hstate : exec peek_message s = s).
  { exact (peek_state s). }
  split_and!; [done| |].
  - intros Hq. unfold result, peek_message, peek, is_empty. py_unfold. by rewrite Hq.
  - intros Hne. destruct (dequeue_message_eq s Hinv Hne) as (item & s' & Hrun & Hroot & _).
    exists item.2. split.
    + unfold result, peek_message, peek, is_empty, on_queue, heapq.getitem, list_getitem.
      py_unfold. rewrite bool_decide_eq_false_2 by (by destruct (queue s)).
      by rewrite Hroot.
    + unfold result. by rewrite Hrun.
Qed.

Lemma drain_sorted (n : nat) :
  ∀ s : PriorityQueue A,
    invariant s → length (queue s) = n →
    ∃ items,
      items ≡ₚ queue s
      ∧ StronglySorted heapq.key_lt items
      ∧ dequeue_messages n s = (Ret items.*2, {| queue := []; counter := counter s |}).
Proof.
  induction n as [|n IH]; intros s Hinv Hlen.
  - exists []. destruct s as [q c]. simpl in *. destruct q; [|done].
    split_and!; [done|constructor|done].
  - assert (Hne : queue s ≠ []) by (intros Hq; by rewrite Hq in Hlen).
    destruct (dequeue_message_eq s Hinv Hne)
      as (item & s' & Hrun & _ & Hp & Hmin & Hc & Hinv').
    destruct (IH s' Hinv') as (items & Hperm & Hsorted & Hdrain).
    { apply Permutation_length in Hp. simpl in Hp. lia. }
    exists (item :: items). split_and!.
    + rewrite Hp. by constructor.
    + apply StronglySorted_cons. split; [|done].
      apply Forall_forall. intros x Hx. apply Hmin. by rewrite <- Hperm.
    + cbn [PriorityMessageQueue.dequeue_messages]. unfold bind at 1. rewrite Hrun.
      unfold bind at 1. rewrite Hdrain. unfold ret. by rewrite Hc.
Qed.

(** X18.  In every reachable state, as many [dequeue_message] calls as
    the queue has entries return all of them, in strictly increasing order
    of [(priority, counter)]; the queue is then empty, with its counter
    unchanged, and one more call raises [IndexError]. *)
Theorem pq_drain_sorted (calls : list (call A)) :
  let s := run calls init in
  let emptied := {| queue := []; counter := counter s |} in
  ∃ items,
    items ≡ₚ queue s
    ∧ StronglySorted heapq.key_lt items
    ∧ dequeue_messages (size s) s = (Ret items.*2, emptied)
    ∧ dequeue_message emptied = (Raise IndexError, emptied).
Proof.
  intros s emptied.
  pose proof (pq_inv_run payload_eq payload_lt calls _ pq_inv_init) as Hinv.
  fold s in Hinv.
  destruct (drain_sorted (size s) s Hinv eq_refl) as (items & Hperm & Hsorted & Hdrain).
  exists items. split_and!; [done|done|done|].
  unfold PriorityMessageQueue.dequeue_message, bind.
  by rewrite (dequeue_empty payload_eq payload_lt emptied).
Qed.

Lemma entries_of_cons (first : nat) (item : Z * A) (items : list (Z * A)) :
  entries_of first (item :: items)
  = (item.1, first, item.2) :: entries_of (S first) items.
Proof.
  unfold entries_of. rewrite imap_cons. f_equal.
  - by rewrite Nat.add_0_r.
  - apply imap_ext. intros i x _. simpl. repeat f_equal. lia.
Qed.

Lemma run_enqueue_calls (items : list (Z * A)) :
  ∀ s : PriorityQueue A,
    invariant s →
    queue (run (enqueue_calls items) s) ≡ₚ queue s ++ entries_of (counter s) items
    ∧ counter (run (enqueue_calls items) s) = counter s + length items
    ∧ invariant (run (enqueue_calls items) s).
Proof.
  induction items as [|[priority message] items IH]; intros s Hinv.
  - simpl. rewrite app_nil_r. split_and!; [done|lia|done].
  - destruct (enqueue_spec payload_eq payload_lt s priority message Hinv)
      as (s1 & Hrun & Hq & Hc & Hinv1).
    change (run (enqueue_calls ((priority, message) :: items)) s)
      with (run (enqueue_calls items)
              (exec (PriorityQueue.enqueue payload_eq payload_lt priority message) s)).
    unfold exec at 1 2 3. rewrite Hrun. cbn [snd].
    destruct (IH s1 Hinv1) as (Hq' & Hc' & Hinv').
    split_and!; [|simpl; lia|done].
    rewrite Hq', Hq, entries_of_cons. simpl.
    replace (counter s1) with (S (counter s)) by lia.
    by rewrite Permutation_middle.
Qed.

(** X19.  When a producer enqueues the pairs [(priority, message)] of a
    list into the empty queue, as many [dequeue_message] calls return the
    messages sorted by priority, and by position in the list among equal
    priorities: the stable sort of the list by priority. *)
Theorem pq_stable_priority_order (items : list (Z * A)) :
  let s := run (enqueue_calls items) init in
  ∃ sorted,
    sorted ≡ₚ entries_of 0 items
    ∧ StronglySorted heapq.key_lt sorted
    ∧ result (dequeue_messages (length items)) s = Ret sorted.*2.
Proof.
  intros s.
  destruct (run_enqueue_calls items init pq_inv_init) as (Hq & Hc & Hinv).
  fold s in Hq, Hc, Hinv. simpl in Hq.
  assert (Hlen : length (queue s) = length items).
  { rewrite Hq. unfold entries_of. by rewrite length_imap. }
  destruct (drain_sorted (length items) s Hinv Hlen) as (sorted & Hperm & Hsorted & Hdrain).
  exists sorted. split_and!; [by rewrite Hperm|done|].
  unfold result. by rewrite Hdrain.
Qed.

End PriorityQueue_more.

Lemma pq_peek_agrees_with_dequeue_witness :
  let s := PriorityQueue.run PriorityQueue.str_eq PriorityQueue.str_lt
             [PriorityQueue.Enqueue 2 "x"; PriorityQueue.Enqueue 1 "y"]
             PriorityQueue.init in
  PriorityQueue.queue s ≠ []
  ∧ ∃ message,
      result PriorityMessageQueue.peek_message s = Ret (Some message)
      ∧ result (PriorityMessageQueue.dequeue_message
                  PriorityQueue.str_eq PriorityQueue.str_lt) s = Ret message.
Proof.
  assert (Hne : PriorityQueue.queue
                  (PriorityQueue.run PriorityQueue.str_eq PriorityQueue.str_lt
                     [PriorityQueue.Enqueue 2 "x"; PriorityQueue.Enqueue 1 "y"]
                     PriorityQueue.init) ≠ []) by (vm_compute; discriminate).
  cbv zeta. split; [exact Hne|].
  apply (proj2 (proj2 (pq_peek_agrees_with_dequeue PriorityQueue.str_eq
                         PriorityQueue.str_lt
                         [PriorityQueue.Enqueue 2 "x"; PriorityQueue.Enqueue 1 "y"]))).
  exact Hne.
Defined.

(** ** Further compositions *)

Section ConnectionManager_endpoints.

Import ConnectionManager.

(** X20.  The [send_personal_message] endpoint never raises, leaves the
    registry as it is, and attempts a send to every handle registered for
    the room, closed or not, in registration order. *)
Theorem cm_send_personal_reaches_room (room message : string) (w : World) :
  send_personal_message_endpoint room message w =
    (Ret tt,
     {| manager := manager w; closed := closed w;
        attempts := attempts w
          ++ ((λ c, (c, message)) <$> get_connections_for_room room (manager w)) |}).
Proof.
  unfold send_personal_message_endpoint, bind, get.
  apply guarded_loop_attempts_all.
Qed.

End ConnectionManager_endpoints.

Section Subscriber_task.

Import MessageQueue.
Import Clients.





End Subscriber_task.

Section PriorityQueue_size.

Import PriorityQueue.

Context {A : Type}.
Variable payload_eq : A -> A -> bool.
Variable payload_lt : A -> A -> outcome bool.

Local Abbreviation run := (PriorityQueue.run payload_eq payload_lt).
Local Abbreviation enqueue := (PriorityQueue.enqueue payload_eq payload_lt).
Local Abbreviation dequeue := (PriorityQueue.dequeue payload_eq payload_lt).

(** X22.  In every reachable state [size] is exact: [is_empty] holds
    exactly when it is zero, [enqueue] raises it by one, [dequeue] on a
    non-empty queue lowers it by one, [peek] keeps it and [clear] sets it
    to zero. *)
Theorem pq_size_exact (calls : list (call A)) :
  let s := run calls init in
  (is_empty s = true ↔ size s = 0)
  ∧ (∀ priority message, size (exec (enqueue priority message) s) = S (size s))
  ∧ (size s ≠ 0 → S (size (exec dequeue s)) = size s)
  ∧ size (exec peek s) = size s
  ∧ size (exec clear s) = 0.
Proof.
  intros s.
  pose proof (pq_inv_run payload_eq payload_lt calls _ pq_inv_init) as Hinv.
  fold s in Hinv. split.
  { unfold is_empty, size. apply bool_decide_eq_true. }
  split_and!.
  - intros priority message.
    destruct (enqueue_spec payload_eq payload_lt s priority message Hinv)
      as (s' & Hrun & Hq & _).
    unfold exec, size. rewrite Hrun. cbn [snd].
    apply Permutation_length in Hq. by rewrite Hq.
  - intros Hne.
    destruct (dequeue_spec payload_eq payload_lt s Hinv)
      as (item & s' & Hrun & _ & Hq & _).
    { intros Hq. unfold size in Hne. by rewrite Hq in Hne. }
    unfold exec, size. rewrite Hrun. cbn [snd].
    apply Permutation_length in Hq. by rewrite Hq.
  - by rewrite peek_state.
  - done.
Qed.

End PriorityQueue_size.

Lemma pq_size_exact_witness :
  let s := PriorityQueue.run PriorityQueue.str_eq PriorityQueue.str_lt
             [PriorityQueue.Enqueue 2 "x"; PriorityQueue.Enqueue 1 "y"]
             PriorityQueue.init in
  PriorityQueue.size s ≠ 0
  ∧ S (PriorityQueue.size
         (exec (PriorityQueue.dequeue PriorityQueue.str_eq PriorityQueue.str_lt) s))
    = PriorityQueue.size s.
Proof.
  assert (Hne : PriorityQueue.size
                  (PriorityQueue.run PriorityQueue.str_eq PriorityQueue.str_lt
                     [PriorityQueue.Enqueue 2 "x"; PriorityQueue.Enqueue 1 "y"]
                     PriorityQueue.init) ≠ 0) by (vm_compute; discriminate).
  cbv zeta. split; [exact Hne|].
  exact (proj1 (proj2 (proj2
           (pq_size_exact PriorityQueue.str_eq PriorityQueue.str_lt
              [PriorityQueue.Enqueue 2 "x"; PriorityQueue.Enqueue 1 "y"]))) Hne).
Defined.
